(** * folkfriend-app-data: the index builder's two core algorithms

    A shallow embedding of
    - [build/src/ff_config.py]            (the pitch band and the alphabet),
    - [build/src/midi.py]                 ([CSVMidiNoteReader], [Note]),
    - [build/src/build_non_user_data.py]  ([clean_alias],
      [deduplicate_aliases], [gather_aliases]),
    followed by the properties of the specification that concern them.

    Conventions of the embedding.
    - A Python [str] is a Rocq [string], i.e. a sequence of 8-bit
      characters; [lower], the regular expression and [split] are modelled
      on that alphabet (case mapping touches [A-Z] only).
    - A Python [int] is a [Z].
    - The times of a [Note] after [set_tempo] are Python floats.  They are
      modelled as exact rationals [Q]; at the default tempo of 125 the scale
      factor is exactly 1 and every time is an integer, so both agree.
    - A Python [frozenset] of words is a [gset string]; the [set] of
      frozensets is a [gset (gset string)]; dictionaries are [gmap]s.
    - A call that may raise returns a [result]. *)

From Stdlib Require Import ZArith QArith Qround Qabs Lqa Ascii String Sorted.
From stdpp Require Import gmap strings list sorting.
From Equations Require Import Equations.

Local Open Scope Z_scope.

(* ===================================================================== *)
(** * Python prelude                                                      *)
(* ===================================================================== *)

(** Exceptions the modelled code can raise. *)
Inductive exn : Type :=
| ValueError
| ZeroDivisionError
| AssertionError
| IndexError.

Inductive result (A : Type) : Type :=
| Ok (a : A)
| Raise (e : exn).
Arguments Ok {A} a.
Arguments Raise {A} e.

Global Instance result_ret : MRet result := fun A a => Ok a.

Global Instance result_bind : MBind result := fun A B k r =>
  match r with
  | Ok a => k a
  | Raise e => Raise e
  end.

(** ** Characters *)

Definition code (c : ascii) : nat := nat_of_ascii c.

Definition is_upper (c : ascii) : bool := (65 <=? code c)%nat && (code c <=? 90)%nat.
Definition is_lower (c : ascii) : bool := (97 <=? code c)%nat && (code c <=? 122)%nat.
Definition is_digit (c : ascii) : bool := (48 <=? code c)%nat && (code c <=? 57)%nat.

(** [str.isspace] on the characters below 128: tab, line feed, vertical
    tab, form feed, carriage return, the four separators 28-31 and space.
    [split] is only applied to what the regular expression leaves, letters
    and spaces. *)
Definition is_space (c : ascii) : bool :=
  ((9 <=? code c)%nat && (code c <=? 13)%nat)
  || ((28 <=? code c)%nat && (code c <=? 32)%nat).

Definition lower_char (c : ascii) : ascii :=
  if is_upper c then ascii_of_nat (code c + 32) else c.

(** ** Strings *)

Fixpoint string_map (f : ascii -> ascii) (s : string) : string :=
  match s with
  | EmptyString => EmptyString
  | String c s' => String (f c) (string_map f s')
  end.

Fixpoint string_filter (p : ascii -> bool) (s : string) : string :=
  match s with
  | EmptyString => EmptyString
  | String c s' => if p c then String c (string_filter p s') else string_filter p s'
  end.

Fixpoint string_forall (p : ascii -> bool) (s : string) : bool :=
  match s with
  | EmptyString => true
  | String c s' => p c && string_forall p s'
  end.

Definition is_empty (s : string) : bool :=
  match s with
  | EmptyString => true
  | String _ _ => false
  end.

(** [s.lower()] on the characters below 128.  [str.lower] also lowers the
    letters beyond them, a few of them to letters below 128 (the dotted
    capital I, the Kelvin sign). *)
Definition lower (s : string) : string := string_map lower_char s.

(** [s.isdigit()] on the characters below 128: non-empty and digits 0-9
    only.  [str.isdigit] also accepts digits beyond them, such as the
    superscript ones, which [int] does not read. *)
Definition isdigit (s : string) : bool := negb (is_empty s) && string_forall is_digit s.

(** [s.split()]: the maximal runs of non-whitespace characters, in order.
    [w] is the word being read. *)
Fixpoint split_go (w : string) (s : string) : list string :=
  match s with
  | EmptyString => if is_empty w then [] else [w]
  | String c s' =>
      if is_space c
      then (if is_empty w then split_go EmptyString s' else w :: split_go EmptyString s')
      else split_go (w +:+ String c EmptyString) s'
  end.

Definition split (s : string) : list string := split_go EmptyString s.

Fixpoint last_char (s : string) : option ascii :=
  match s with
  | EmptyString => None
  | String c EmptyString => Some c
  | String _ s' => last_char s'
  end.

(** [w.endswith('s')] *)
Definition endswith_s (w : string) : bool :=
  match last_char w with
  | Some c => bool_decide (c = "s"%char)
  | None => false
  end.

(** [w[:-1]] *)
Fixpoint drop_last (w : string) : string :=
  match w with
  | EmptyString => EmptyString
  | String _ EmptyString => EmptyString
  | String c w' => String c (drop_last w')
  end.

(** ** Numbers *)

Definition digit_val (c : ascii) : Z := Z.of_nat (code c) - 48.

Fixpoint decimal_go (acc : Z) (s : string) : Z :=
  match s with
  | EmptyString => acc
  | String c s' => decimal_go (10 * acc + digit_val c) s'
  end.

(** [int(s)] on the decimal spellings [[+-]?[0-9]+].  Everything else is
    reported as [ValueError]; the padded and underscore-grouped spellings
    that [int] also reads do not occur in the data and are not modelled. *)
Definition py_int (s : string) : result Z :=
  match s with
  | EmptyString => Raise ValueError
  | String c s' =>
      if bool_decide (c = "-"%char) then
        (if isdigit s' then Ok (- decimal_go 0 s') else Raise ValueError)
      else if bool_decide (c = "+"%char) then
        (if isdigit s' then Ok (decimal_go 0 s') else Raise ValueError)
      else
        (if isdigit s then Ok (decimal_go 0 s) else Raise ValueError)
  end.

(** ** Sorting

    [sorted] is stable: equal elements keep their input order.  Insertion
    from the right, placing the new element in front of the first one that
    is not smaller, is a stable sort. *)
Fixpoint insert_sorted {A : Type} (le : A -> A -> bool) (x : A) (l : list A) : list A :=
  match l with
  | [] => [x]
  | y :: l' => if le x y then x :: y :: l' else y :: insert_sorted le x l'
  end.

Definition py_sorted {A : Type} (le : A -> A -> bool) (l : list A) : list A :=
  foldr (insert_sorted le) [] l.

(** [sorted(l, key=key)] for an integer-valued key. *)
Definition sorted_by_key {A : Type} (key : A -> Z) (l : list A) : list A :=
  py_sorted (fun x y => key x <=? key y) l.

(** [sorted(l)] on strings: lexicographic on character codes. *)
Definition sorted_strings (l : list string) : list string := py_sorted String.leb l.

(* ===================================================================== *)
(** * build_non_user_data.py: alias canonicalisation                      *)
(* ===================================================================== *)

Definition STOP_WORDS : gset string :=
  {[ "a"; "an"; "the"; "at"; "by"; "for"; "in"; "of"; "on";
     "to"; "up"; "and"; "as"; "but"; "or"; "nor" ]}.

(** [NON_WORD_CHARS = re.compile('[^a-zA-Z ]')]: the characters that
    [NON_WORD_CHARS.sub('', _)] keeps. *)
Definition is_word_char (c : ascii) : bool :=
  is_lower c || is_upper c || bool_decide (c = " "%char).

Definition strip_plural (w : string) : string :=
  if endswith_s w then drop_last w else w.

Definition british (w : string) : string :=
  if bool_decide (w = "favorite") then "favourite" else w.

Definition keep_word (w : string) : bool :=
  negb (is_empty w) && negb (bool_decide (w ∈ STOP_WORDS)).

(** The list of words [clean_alias] builds before it makes a set of them. *)
Definition clean_words (alias : string) : list string :=
  let alias := lower alias in
  let alias := string_filter is_word_char alias in
  let alias := split alias in
  let alias := filter (fun w => keep_word w = true) alias in
  let alias := strip_plural <$> alias in
  british <$> alias.

Definition clean_alias (alias : string) : gset string :=
  list_to_set (clean_words alias).

(** First loop of [deduplicate_aliases]: [seen] is [seen_aliases]; the
    pairs are produced in the order in which the loop appends them. *)
Fixpoint dedupe_pass (seen : gset (gset string)) (aliases : list string)
  : list (gset string * string) :=
  match aliases with
  | [] => []
  | alias :: rest =>
      let cleaned_alias := clean_alias alias in
      if bool_decide (cleaned_alias ∈ seen)
      then dedupe_pass seen rest
      else (cleaned_alias, alias) :: dedupe_pass ({[ cleaned_alias ]} ∪ seen) rest
  end.

(** [len(c[0])] *)
Definition len_key (c : gset string * string) : Z := Z.of_nat (size c.1).

(** [any(cleaned < c for (c, _) in l)] *)
Definition any_superset (cleaned : gset string) (l : list (gset string * string)) : bool :=
  existsb (fun c => bool_decide (cleaned ⊂ c.1)) l.

(** Second loop: at position [i] the slice [deduped_aliases[i:]] is the
    list that is left, the pair itself included. *)
Fixpoint remove_subsets (deduped_aliases : list (gset string * string)) : list string :=
  match deduped_aliases with
  | [] => []
  | (cleaned, alias) :: rest =>
      if any_superset cleaned ((cleaned, alias) :: rest)
      then remove_subsets rest
      else alias :: remove_subsets rest
  end.

Definition deduplicate_aliases (aliases : list string) : list string :=
  let deduped_aliases := dedupe_pass ∅ aliases in
  let deduped_aliases := sorted_by_key len_key deduped_aliases in
  let deduped_aliases_no_subsets := remove_subsets deduped_aliases in
  sorted_strings deduped_aliases_no_subsets.

(** ** gather_aliases *)

(** The fields [gather_aliases] reads of a record of [aliases.json] and of
    a setting of [tunes.json]. *)
Record alias_record : Type := { ar_tune_id : string; ar_alias : string }.
Record tune_setting : Type := { ts_tune_id : string; ts_name : string }.

(** [aliases[tid]] on the [defaultdict(list)]. *)
Definition get_list (aliases : gmap string (list string)) (tid : string) : list string :=
  default [] (aliases !! tid).

(** [aliases[tid].append(alias)] *)
Definition append_alias (aliases : gmap string (list string)) (alias_record : alias_record)
  : gmap string (list string) :=
  let tid := ar_tune_id alias_record in
  let alias := lower (ar_alias alias_record) in
  <[ tid := get_list aliases tid ++ [alias] ]> aliases.

(** Body of the loop over [tune_data]. *)
Definition insert_name (aliases : gmap string (list string)) (setting : tune_setting)
  : gmap string (list string) :=
  let tid := ts_tune_id setting in
  let alias := lower (ts_name setting) in
  let current := get_list aliases tid in
  match current with
  | [] => <[ tid := [alias] ]> aliases
  | first :: _ =>
      if negb (bool_decide (first = alias))
      then <[ tid := alias :: current ]> aliases
      else aliases
  end.

Definition gather_aliases (alias_records : list alias_record) (tune_data : list tune_setting)
  : result (gmap string (list string)) :=
  (* sorted(alias_records, key=lambda r: int(r['tune_id'])) *)
  keyed ← mapM (fun r => k ← py_int (ar_tune_id r); mret (k, r)) alias_records;
  let sorted_records := snd <$> sorted_by_key fst keyed in
  let aliases := foldl append_alias ∅ sorted_records in
  let aliases := deduplicate_aliases <$> aliases in
  let aliases := foldl insert_name aliases tune_data in
  if forallb (fun kv => negb (bool_decide (kv.2 = []))) (map_to_list aliases)
  then Ok aliases
  else Raise AssertionError.

(* ===================================================================== *)
(** * ff_config.py                                                        *)
(* ===================================================================== *)

Definition MIDI_HIGH : Z := 95.
Definition MIDI_LOW : Z := 48.
Definition MIDI_NUM : Z := MIDI_HIGH - MIDI_LOW + 1.

Definition ascii_letters : string :=
  "abcdefghijklmnopqrstuvwxyzABCDEFGHIJKLMNOPQRSTUVWXYZ".

Definition MIDI_MAP : string := String.substring 0 (Z.to_nat MIDI_NUM) ascii_letters.

(** [s[n]]: negative indices count from the end. *)
Definition str_index (s : string) (n : Z) : result ascii :=
  let len := Z.of_nat (String.length s) in
  let i := if n <? 0 then len + n else n in
  if (0 <=? i) && (i <? len)
  then match String.get (Z.to_nat i) s with
       | Some c => Ok c
       | None => Raise IndexError
       end
  else Raise IndexError.

(* ===================================================================== *)
(** * midi.py                                                             *)
(* ===================================================================== *)

(** ** Note *)

(** [_midi_start], [_midi_end] and [pitch]; [start] and [end] are functions
    of these and of the scale factor of the last [set_tempo]. *)
Record Note : Type := { midi_start : Z; midi_end : Z; pitch : Z }.

(** [ms_scale_factor] of [set_tempo], in exact arithmetic.  The code makes
    two binary64 divisions; they are exact at the default tempo of 125,
    where the factor is 1, and at a few others (100, 62.5, 250), and
    rounded elsewhere (at tempo 60 the code has 2.0833333333333335 for
    25/12). *)
Definition ms_scale_factor (tempo : Q) : result Q :=
  if Qeq_bool tempo 0 then Raise ZeroDivisionError
  else
    let us_per_crotchet := (60000000 / tempo)%Q in
    Ok (us_per_crotchet / 480000)%Q.

(** [start], [end] and [duration], in exact arithmetic: the code rounds
    each product and the difference, so the two agree where the factor and
    the products are exact, as at the default tempo. *)
Definition note_start (factor : Q) (n : Note) : Q := (factor * inject_Z (midi_start n))%Q.
Definition note_end (factor : Q) (n : Note) : Q := (factor * inject_Z (midi_end n))%Q.
Definition duration (factor : Q) (n : Note) : Q := (note_end factor n - note_start factor n)%Q.

(** [while pitch <= MIDI_LOW: pitch += 12] *)
Equations? raise_octaves (pitch : Z) : Z by wf (Z.to_nat (MIDI_LOW + 1 - pitch)) lt :=
  raise_octaves pitch with decide (pitch <= MIDI_LOW) => {
    | left _ := raise_octaves (pitch + 12);
    | right _ := pitch }.
Proof. unfold MIDI_LOW in *. lia. Qed.

(** [while pitch >= MIDI_HIGH: pitch -= 12] *)
Equations? lower_octaves (pitch : Z) : Z by wf (Z.to_nat (pitch + 1 - MIDI_HIGH)) lt :=
  lower_octaves pitch with decide (pitch >= MIDI_HIGH) => {
    | left _ := lower_octaves (pitch - 12);
    | right _ := pitch }.
Proof. unfold MIDI_HIGH in *. lia. Qed.

(** The pitch the two loops of [rel_pitch] end with. *)
Definition folded_pitch (p : Z) : Z := lower_octaves (raise_octaves p).

Definition rel_pitch (n : Note) : Z := folded_pitch (pitch n) - MIDI_LOW.

(** ** CSVMidiNoteReader.to_notes *)

(** The columns [to_notes] reads of a row.  [csv.DictReader] fills the
    columns a short row lacks with [None]; [rec_time] and [rec_type] come
    before [note] in [fieldnames] and are only read when [note] is there. *)
Record csv_record : Type :=
  { rec_time : string; rec_type : string; rec_note : option string }.

Record reader_state : Type :=
  { active_notes : gmap Z Z; notes : list Note }.

(** Body of the loop of [to_notes]. *)
Definition to_notes_step (st : reader_state) (record : csv_record) : result reader_state :=
  match rec_note record with
  | None => Ok st
  | Some field =>
      if is_empty field || negb (isdigit field) then Ok st
      else
        note ← py_int field;
        time ← py_int (rec_time record);
        if bool_decide (rec_type record = "Note_on_c") then
          match active_notes st !! note with
          | None => Ok {| active_notes := <[ note := time ]> (active_notes st);
                          notes := notes st |}
          | Some _ => Ok st
          end
        else if bool_decide (rec_type record = "Note_off_c") then
          match active_notes st !! note with
          | None => Ok st
          | Some note_start =>
              Ok {| active_notes := delete note (active_notes st);
                    notes := notes st ++ [ {| midi_start := note_start;
                                              midi_end := time;
                                              pitch := note |} ] |}
          end
        else Ok st
  end.

Fixpoint to_notes_from (st : reader_state) (records : list csv_record) : result reader_state :=
  match records with
  | [] => Ok st
  | record :: rest => st' ← to_notes_step st record; to_notes_from st' rest
  end.

Definition to_notes (records : list csv_record) : result (list Note) :=
  st ← to_notes_from {| active_notes := ∅; notes := [] |} records;
  mret (notes st).

(** ** CSVMidiNoteReader.to_midi_contour *)

(** Comparisons of two times, each by its own test as Python makes it. *)
Definition py_le (a b : Q) : bool := Qle_bool a b.
Definition py_lt (a b : Q) : bool :=
  match (a ?= b)%Q with Lt => true | _ => false end.
Definition py_gt (a b : Q) : bool :=
  match (a ?= b)%Q with Gt => true | _ => false end.

(** Truth value of an optional number: [None] and zero are false. *)
Definition truthy (x : option Q) : bool :=
  match x with
  | None => false
  | Some q => negb (Qeq_bool q 0)
  end.

(** [x.is_integer()] *)
Definition is_integer (x : Q) : bool := Qeq_bool x (inject_Z (Qfloor x)).

(** [math.ceil] and [math.floor], the two values of [round_f]. *)
Inductive rounding : Type := Ceil | Floor.

Definition apply_rounding (round_f : rounding) (x : Q) : Z :=
  match round_f with
  | Ceil => Qceiling x
  | Floor => Qfloor x
  end.

(** [[x] * n] *)
Definition repeat_symbol (x : Z) (n : Z) : list Z := replicate (Z.to_nat n) x.

(** The loop variables. *)
Record qstate : Type :=
  { music_time : Q; output_time : Q; midi_contour : list Z }.

(** The way a note leaves the loop body. *)
Inductive branch : Type :=
| BeforeWindow             (* first [continue] *)
| AfterWindow              (* [break] *)
| AlreadyCovered           (* second [continue] *)
| WholeQuavers             (* [rel_duration.is_integer()] *)
| ShortNote                (* [rel_duration < 1.0] *)
| Rounded (round_f : rounding).

Section Quantizer.
(** [factor] is the scale factor of [set_tempo(tempo)].  [to_midi_contour]
    only passes a factor that [ms_scale_factor] returned; that one is not
    zero, so [quaver_duration] is not zero either and the division of
    [emit] never raises. *)
Variables (factor : Q) (start_seconds end_seconds : option Q).

(** Duration of the dummy note [Note(0, 240, None)], whose pitch is
    never read. *)
Definition quaver_duration : Q :=
  duration factor {| midi_start := 0; midi_end := 240; pitch := 0 |}.

Definition before_window (note : Note) : bool :=
  match start_seconds with
  | Some s => truthy start_seconds && py_lt (note_end factor note) (1000 * s)
  | None => false
  end.

Definition after_window (note : Note) : bool :=
  match end_seconds with
  | Some e => truthy end_seconds && py_gt (note_start factor note) (1000 * e)
  | None => false
  end.

(** The emission step: everything below the second [continue].
    [int(rel_duration)] is only taken of an integer, where it is the
    floor. *)
Definition emit (music_time output_time : Q) (contour : list Z) (note : Note)
  : branch * qstate :=
  let rel_duration := (duration factor note / quaver_duration)%Q in
  if is_integer rel_duration then
    (WholeQuavers,
     {| music_time := music_time;
        output_time := output_time + duration factor note;
        midi_contour := contour ++ repeat_symbol (rel_pitch note) (Qfloor rel_duration) |})
  else if py_lt rel_duration 1 then
    (ShortNote,
     {| music_time := music_time;
        output_time := output_time + quaver_duration;
        midi_contour := contour ++ [rel_pitch note] |})
  else
    let round_f := if py_gt music_time output_time then Ceil else Floor in
    let rounded_int := apply_rounding round_f rel_duration in
    (Rounded round_f,
     {| music_time := music_time;
        output_time := output_time + inject_Z rounded_int * quaver_duration;
        midi_contour := contour ++ repeat_symbol (rel_pitch note) rounded_int |}).

(** One iteration of the loop. *)
Definition quantize_step (st : qstate) (note : Note) : branch * qstate :=
  if before_window note then
    (BeforeWindow,
     {| music_time := note_end factor note;
        output_time := note_end factor note;
        midi_contour := midi_contour st |})
  else if after_window note then (AfterWindow, st)
  else
    let music_time' := (music_time st + duration factor note)%Q in
    if py_le music_time' (output_time st) then
      (AlreadyCovered,
       {| music_time := music_time';
          output_time := output_time st;
          midi_contour := midi_contour st |})
    else emit music_time' (output_time st) (midi_contour st) note.

(** The walk, as the list of the iterations made: the branch each note
    took and the loop variables after it.  It ends with the [break]. *)
Fixpoint walk (st : qstate) (notes : list Note) : list (branch * qstate) :=
  match notes with
  | [] => []
  | note :: rest =>
      match quantize_step st note with
      | (AfterWindow, st') => [(AfterWindow, st')]
      | (b, st') => (b, st') :: walk st' rest
      end
  end.

(** The loop variables when the loop is left. *)
Fixpoint run (st : qstate) (notes : list Note) : qstate :=
  match notes with
  | [] => st
  | note :: rest =>
      match quantize_step st note with
      | (AfterWindow, _) => st
      | (_, st') => run st' rest
      end
  end.
End Quantizer.

Definition initial_qstate : qstate :=
  {| music_time := 0; output_time := 0; midi_contour := [] |}.

(** [''.join(l)] on one-character strings. *)
Definition join_chars (l : list ascii) : string := foldr String EmptyString l.

(** [to_midi_contour] on the notes [self._notes] of the reader. *)
Definition to_midi_contour (reader_notes : list Note) (tempo : Q)
    (start_seconds end_seconds : option Q) : result string :=
  factor ← ms_scale_factor tempo;
  let st := run factor start_seconds end_seconds initial_qstate reader_notes in
  symbols ← mapM (str_index MIDI_MAP) (midi_contour st);
  mret (join_chars symbols).

(* ===================================================================== *)
(** * build_non_user_data.py: the rest of the data preparation            *)
(* ===================================================================== *)

(** ** clean_thesession_data *)

(** [del d[key]] on a dictionary; [None] stands for the [KeyError] of a
    missing key. *)
Definition del_key {V : Type} (key : string) (d : gmap string V) : option (gmap string V) :=
  match d !! key with
  | Some _ => Some (delete key d)
  | None => None
  end.

(** Body of the loop of [clean_thesession_data], on one setting. *)
Definition clean_setting {V : Type} (setting : gmap string V) : option (gmap string V) :=
  setting ← del_key "date" setting;
  setting ← del_key "username" setting;
  setting ← del_key "name" setting;
  dance ← setting !! "type";
  del_key "type" (<[ "dance" := dance ]> setting).

Definition clean_thesession_data {V : Type} (tune_data : list (gmap string V))
  : option (list (gmap string V)) :=
  mapM clean_setting tune_data.

(** ** gather_aliases of build-index/build_non_user_data.py

    The older variant: the names go in first, the aliases after them, and
    everything is deduplicated together. *)

(** [aliases[tid].append(alias.lower())] for a setting. *)
Definition append_name (aliases : gmap string (list string)) (setting : tune_setting)
  : gmap string (list string) :=
  let tid := ts_tune_id setting in
  let alias := ts_name setting in
  <[ tid := get_list aliases tid ++ [lower alias] ]> aliases.

Definition gather_aliases_legacy (alias_records : list alias_record)
    (tune_data : list tune_setting) : result (gmap string (list string)) :=
  let aliases := foldl append_name ∅ tune_data in
  keyed ← mapM (fun r => k ← py_int (ar_tune_id r); mret (k, r)) alias_records;
  let sorted_records := snd <$> sorted_by_key fst keyed in
  let aliases := foldl append_alias aliases sorted_records in
  Ok (deduplicate_aliases <$> aliases).

(* ===================================================================== *)
(** * Vocabulary and sample inputs of the properties                      *)
(* ===================================================================== *)

(** The branches that reach the emission step. *)
Definition is_emission (b : branch) : bool :=
  match b with
  | WholeQuavers | ShortNote | Rounded _ => true
  | BeforeWindow | AfterWindow | AlreadyCovered => false
  end.

(** A note of two quavers and a half. *)
Definition long_note : Note := {| midi_start := 0; midi_end := 600; pitch := 62 |}.

(** With the window end at one second: a note that starts at the window
    end, and one that starts a tick later. *)
Definition note_at_window_end : Note :=
  {| midi_start := 1000; midi_end := 1240; pitch := 62 |}.


(** The rows of three dotted quavers in a row, each 360 ticks long. *)
Definition three_dotted_quavers : list csv_record :=
  [ {| rec_time := "0"; rec_type := "Note_on_c"; rec_note := Some "62" |};
    {| rec_time := "360"; rec_type := "Note_off_c"; rec_note := Some "62" |};
    {| rec_time := "360"; rec_type := "Note_on_c"; rec_note := Some "64" |};
    {| rec_time := "720"; rec_type := "Note_off_c"; rec_note := Some "64" |};
    {| rec_time := "720"; rec_type := "Note_on_c"; rec_note := Some "66" |};
    {| rec_time := "1080"; rec_type := "Note_off_c"; rec_note := Some "66" |} ].

(** A [Note_off_c] for pitch 64 while only pitch 62 is open. *)
Definition stray_off : csv_record :=
  {| rec_time := "120"; rec_type := "Note_off_c"; rec_note := Some "64" |}.

Definition one_open_note : reader_state :=
  {| active_notes := {[ 62 := 0 ]}; notes := [] |}.

(** Re-cleaning: every word of a canonical set goes through [clean_alias]
    again, and the sets obtained are put together. *)
Definition reclean (tokens : gset string) : gset string :=
  ⋃ (clean_alias <$> elements tokens).

(** A word that cleaning leaves alone: not empty, not a stop word, no
    final [s]. *)
Definition stable_word (w : string) : bool :=
  negb (is_empty w) && negb (bool_decide (w ∈ STOP_WORDS)) && negb (endswith_s w).

(** What [lower] and the regular expression leave: small letters and
    blanks. *)
Definition small_or_blank (c : ascii) : bool :=
  is_lower c || bool_decide (c = " "%char).

(** Tune 1 is called "Zed Reel"; [aliases.json] lists that name too, after
    "Apple". *)
Definition zed_reel_aliases : list alias_record :=
  [ {| ar_tune_id := "1"; ar_alias := "Apple" |};
    {| ar_tune_id := "1"; ar_alias := "Zed Reel" |} ].

Definition zed_reel_settings : list tune_setting :=
  [ {| ts_tune_id := "1"; ts_name := "Zed Reel" |} ].

(** The characters below 128, on which [str.lower], [str.isdigit] and the
    model agree. *)
Definition is_ascii (c : ascii) : bool := (code c <? 128)%nat.

Fixpoint string_exists (p : ascii -> bool) (s : string) : bool :=
  match s with
  | EmptyString => false
  | String c s' => p c || string_exists p s'
  end.

(** A character below 128 that is not a digit: a cell that holds one is
    not a number for [str.isdigit], whatever else it holds. *)
Definition plain_non_digit (c : ascii) : bool := is_ascii c && negb (is_digit c).

(** The note cells of the rows, where present, hold characters below 128
    only. *)
Definition plain_note_cells (records : list csv_record) : Prop :=
  Forall (fun r => match rec_note r with
                   | Some field => string_forall is_ascii field = true
                   | None => True
                   end) records.

(** A row without a note column, as [abc2midi]'s tempo row gives. *)
Definition tempo_row : csv_record :=
  {| rec_time := "0"; rec_type := "Tempo"; rec_note := None |}.

(** A row whose note column holds text. *)
Definition title_row : csv_record :=
  {| rec_time := "x"; rec_type := "Note_on_c"; rec_note := Some "6o" |}.

(** A [Note_on_c] for pitch 62 while pitch 62 is open. *)
Definition second_on : csv_record :=
  {| rec_time := "120"; rec_type := "Note_on_c"; rec_note := Some "62" |}.

(** The state of [to_notes] at a time [T] of a chronological stream: no
    open note starts after [T]; every note made starts no later than it
    ends, ends no later than [T] and has a pitch that is not negative; the
    notes are in the order of their ends. *)
Definition timeline_ok (T : Z) (st : reader_state) : Prop :=
  (forall p s, active_notes st !! p = Some s -> s <= T)
  /\ Forall (fun n => midi_start n <= midi_end n /\ midi_end n <= T /\ 0 <= pitch n)
            (notes st)
  /\ StronglySorted (fun a b => midi_end a <= midi_end b) (notes st).

(** The one setting of tune 1, and a setting of a tune that has no alias
    record. *)
Definition zed_reel_setting : tune_setting :=
  {| ts_tune_id := "1"; ts_name := "Zed Reel" |}.

Definition other_setting : tune_setting :=
  {| ts_tune_id := "7"; ts_name := "The Thrush" |}.

(** A setting of [tunes.json], its values kept as text. *)
Definition sample_setting : gmap string string :=
  list_to_map [ ("tune_id", "1"); ("name", "Zed Reel"); ("type", "reel");
                ("abc", "GABc"); ("date", "2001"); ("username", "jo") ].

(** An alias record whose tune identifier is not a number. *)
Definition bad_alias_record : alias_record :=
  {| ar_tune_id := "x1"; ar_alias := "Apple" |}.

(** The test and the insertion of the loop over [tune_data], on the list
    of one tune: [alias] is put in front unless the list starts with it. *)
Definition name_first (current : list string) (alias : string) : list string :=
  match current with
  | [] => [alias]
  | first :: _ => if bool_decide (first = alias) then current else alias :: current
  end.

(** The aliases of a tune in [alias_records], lower-cased, in the order of
    the file; the names of its settings in [tune_data], lower-cased. *)
Definition aliases_of (tid : string) (alias_records : list alias_record) : list string :=
  (fun r => lower (ar_alias r)) <$> filter (fun r => ar_tune_id r = tid) alias_records.

Definition names_of (tid : string) (tune_data : list tune_setting) : list string :=
  (fun t => lower (ts_name t)) <$> filter (fun t => ts_tune_id t = tid) tune_data.

(** The time the symbols emitted so far stand for: their number times the
    duration of a quaver. *)
Definition symbols_time (factor : Q) (st : qstate) : Q :=
  (inject_Z (Z.of_nat (length (midi_contour st))) * quaver_duration factor)%Q.

(* ===================================================================== *)
(** * Properties                                                          *)
(* ===================================================================== *)

(** ** The pitch folder *)

Lemma raise_octaves_spec (p : Z) :
  MIDI_LOW < raise_octaves p
  /\ (raise_octaves p - p) mod 12 = 0
  /\ raise_octaves p <= Z.max p (MIDI_LOW + 12).
Proof.
  funelim (raise_octaves p).
  - destruct H as (Hlow & Hmod & Hmax).
    split; [exact Hlow|]. split.
    + replace (raise_octaves (pitch0 + 12) - pitch0)
        with (raise_octaves (pitch0 + 12) - (pitch0 + 12) + 1 * 12) by lia.
      rewrite Z_mod_plus_full. exact Hmod.
    + unfold MIDI_LOW in *. lia.
  - unfold MIDI_LOW in *. repeat split; [lia | | lia].
    rewrite Z.sub_diag. reflexivity.
Qed.

Lemma lower_octaves_spec (p : Z) :
  lower_octaves p < MIDI_HIGH
  /\ (lower_octaves p - p) mod 12 = 0
  /\ Z.min p (MIDI_HIGH - 12) <= lower_octaves p.
Proof.
  funelim (lower_octaves p).
  - destruct H as (Hhigh & Hmod & Hmin).
    split; [exact Hhigh|]. split.
    + replace (lower_octaves (pitch0 - 12) - pitch0)
        with (lower_octaves (pitch0 - 12) - (pitch0 - 12) + (-1) * 12) by lia.
      rewrite Z_mod_plus_full. exact Hmod.
    + unfold MIDI_HIGH in *. lia.
  - unfold MIDI_HIGH in *. repeat split; [lia | | lia].
    rewrite Z.sub_diag. reflexivity.
Qed.

(** C2.  For every integer pitch the two loops of [rel_pitch] end on a
    pitch strictly between [MIDI_LOW] and [MIDI_HIGH] that is congruent to
    the given one modulo 12, and [rel_pitch] returns that pitch minus
    [MIDI_LOW]. *)
Theorem rel_pitch_folds_into_band (n : Note) :
  MIDI_LOW < folded_pitch (pitch n) < MIDI_HIGH
  /\ folded_pitch (pitch n) mod 12 = pitch n mod 12
  /\ rel_pitch n = folded_pitch (pitch n) - MIDI_LOW.
Proof.
  unfold rel_pitch, folded_pitch.
  destruct (raise_octaves_spec (pitch n)) as (Hlow & Hmod1 & _).
  destruct (lower_octaves_spec (raise_octaves (pitch n))) as (Hhigh & Hmod2 & Hmin).
  split; [|split; [|reflexivity]].
  - unfold MIDI_LOW, MIDI_HIGH in *. lia.
  - set (a := raise_octaves (pitch n)) in *.
    set (b := lower_octaves a) in *.
    replace b with (pitch n + ((b - a) + (a - pitch n))) by lia.
    rewrite Z.add_mod by lia.
    rewrite (Z.add_mod (b - a)) by lia.
    rewrite Hmod1, Hmod2. cbn.
    rewrite Z.add_0_r. apply Z.mod_mod. lia.
Qed.

(** ** The quantizer *)

Lemma py_le_false_gt (a b : Q) : py_le a b = false -> py_gt a b = true.
Proof.
  unfold py_le, py_gt. intros Hle.
  assert (Hlt : (b < a)%Q).
  { apply Qnot_le_lt. intros H. apply Qle_bool_iff in H. congruence. }
  apply Qgt_alt in Hlt. rewrite Hlt. reflexivity.
Qed.

Lemma py_gt_true (a b : Q) : py_gt a b = true -> (b < a)%Q.
Proof.
  unfold py_gt. intros H. apply Qgt_alt.
  destruct (a ?= b)%Q; congruence.
Qed.

Lemma py_gt_false (a b : Q) : py_gt a b = false -> (a <= b)%Q.
Proof.
  unfold py_gt. intros H. apply Qle_alt.
  destruct (a ?= b)%Q; congruence.
Qed.

Section QuantizerFacts.
Variables (factor : Q) (start_seconds end_seconds : option Q).

Abbreviation step := (quantize_step factor start_seconds end_seconds).

Lemma emit_behind (m o : Q) (c : list Z) (note : Note) :
  py_gt m o = true ->
  (emit factor m o c note).1 <> Rounded Floor
  /\ music_time (emit factor m o c note).2 = m.
Proof.
  intros Hgt. unfold emit.
  destruct (is_integer _); [split; [discriminate|reflexivity]|].
  destruct (py_lt _ 1); [split; [discriminate|reflexivity]|].
  rewrite Hgt. split; [discriminate|reflexivity].
Qed.

Lemma step_emission (st : qstate) (note : Note) :
  is_emission (step st note).1 = true ->
  py_gt (music_time st + duration factor note) (output_time st) = true
  /\ step st note
     = emit factor (music_time st + duration factor note)%Q (output_time st)
            (midi_contour st) note.
Proof.
  unfold quantize_step.
  destruct (before_window _ _ _); [discriminate|].
  destruct (after_window _ _ _); [discriminate|].
  destruct (py_le _ _) eqn:Hle; [discriminate|].
  intros _. split; [|reflexivity]. apply py_le_false_gt, Hle.
Qed.

Lemma step_not_floor (st : qstate) (note : Note) :
  (step st note).1 <> Rounded Floor.
Proof.
  destruct (is_emission (step st note).1) eqn:Hem.
  - destruct (step_emission st note Hem) as [Hgt ->].
    apply emit_behind, Hgt.
  - intros Heq. rewrite Heq in Hem. discriminate.
Qed.

Lemma walk_not_floor (notes : list Note) (st : qstate) :
  Forall (fun e => e.1 <> Rounded Floor) (walk factor start_seconds end_seconds st notes).
Proof.
  revert st. induction notes as [|note rest IH]; intros st; cbn; [constructor|].
  pose proof (step_not_floor st note) as Hnf.
  destruct (step st note) as [b st'] eqn:Hstep. cbn in Hnf.
  destruct b; try (constructor; [exact Hnf | apply IH]).
  constructor; [discriminate | constructor].
Qed.


(** [run] ends on the loop variables of the last iteration of [walk]. *)
Lemma run_last_of_walk (notes : list Note) (st : qstate) :
  run factor start_seconds end_seconds st notes
  = default st (snd <$> last (walk factor start_seconds end_seconds st notes)).
Proof.
  revert st. induction notes as [|note rest IH]; intros st; cbn; [reflexivity|].
  destruct (step st note) as [b st'] eqn:Hstep.
  assert (Hbreak : b = AfterWindow -> st' = st).
  { intros ->. unfold quantize_step in Hstep.
    destruct (before_window _ _ _); [discriminate|].
    destruct (after_window _ _ _); [congruence|].
    destruct (py_le _ _); [discriminate|].
    unfold emit in Hstep. destruct (is_integer _); [discriminate|].
    destruct (py_lt _ 1); discriminate. }
  destruct b; try (rewrite last_cons, IH;
                   destruct (last (walk factor start_seconds end_seconds st' rest));
                   reflexivity).
  cbn. symmetry. apply Hbreak. reflexivity.
Qed.
End QuantizerFacts.

(** C9.  When a note reaches the emission step, [music_time] (with the
    note's duration already added) is greater than [output_time]; the
    rounding chosen in the last branch is therefore always [math.ceil], and
    no walk ever takes the [math.floor] branch. *)
Theorem floor_branch_unreachable (factor : Q) (start_seconds end_seconds : option Q) :
  (forall (st : qstate) (note : Note) (b : branch) (st' : qstate),
      quantize_step factor start_seconds end_seconds st note = (b, st') ->
      is_emission b = true ->
      (output_time st < music_time st + duration factor note)%Q
      /\ music_time st' = (music_time st + duration factor note)%Q
      /\ b <> Rounded Floor)
  /\ (forall (st : qstate) (notes : list Note),
         Forall (fun e => e.1 <> Rounded Floor)
                (walk factor start_seconds end_seconds st notes)).
Proof.
  split.
  - intros st note b st' Hstep Hem.
    assert (Hem' : is_emission (quantize_step factor start_seconds end_seconds st note).1 = true)
      by (rewrite Hstep; exact Hem).
    destruct (step_emission factor start_seconds end_seconds st note Hem') as [Hgt Heq].
    destruct (emit_behind factor _ _ (midi_contour st) note Hgt) as [Hnf Hm].
    rewrite <- Heq, Hstep in Hnf, Hm. cbn in Hnf, Hm.
    repeat split; [apply py_gt_true, Hgt | exact Hm | exact Hnf].
  - intros st notes. apply walk_not_floor.
Qed.

Lemma floor_branch_unreachable_witness :
  (output_time initial_qstate
   < music_time initial_qstate + duration 1 long_note)%Q
  /\ Rounded Ceil <> Rounded Floor.
Proof.
  pose proof (proj1 (floor_branch_unreachable 1 None None)
                initial_qstate long_note (Rounded Ceil)
                (quantize_step 1 None None initial_qstate long_note).2
                eq_refl eq_refl) as (H1 & _ & H3).
  split; [exact H1 | exact H3].
Defined.

(* The window end: the test of the source is
   [note.start > 1000 * end_seconds], a strict one. *)









(** C1 on the code.  After the third dotted quaver the notes consumed last
    1080 ms and the six symbols emitted 1440 ms: the clocks are 360 ms
    apart, one and a half quavers.  Every one of the three notes is rounded
    up, since the [math.floor] branch cannot be taken. *)
Theorem three_dotted_quavers_drift :
  exists (reader_notes : list Note) (factor : Q),
    to_notes three_dotted_quavers = Ok reader_notes
    /\ ms_scale_factor 125 = Ok factor
    /\ (walk factor None None initial_qstate reader_notes).*1
       = [Rounded Ceil; Rounded Ceil; Rounded Ceil]
    /\ (quaver_duration factor == 240)%Q
    /\ (music_time (run factor None None initial_qstate reader_notes) == 1080)%Q
    /\ (output_time (run factor None None initial_qstate reader_notes) == 1440)%Q
    /\ (quaver_duration factor
        < Qabs (output_time (run factor None None initial_qstate reader_notes)
                - music_time (run factor None None initial_qstate reader_notes)))%Q
    /\ to_midi_contour reader_notes 125 None None = Ok "ooqqss".
Proof.
  eexists. eexists.
  split; [vm_compute; reflexivity|].
  split; [vm_compute; reflexivity|].
  repeat split; vm_compute; reflexivity.
Qed.

(** ** The timeline builder *)

Lemma is_digit_not_sign (c : ascii) :
  is_digit c = true -> c <> "-"%char /\ c <> "+"%char.
Proof. intros H. split; intros ->; vm_compute in H; discriminate. Qed.

Lemma py_int_isdigit (s : string) :
  isdigit s = true -> py_int s = Ok (decimal_go 0 s).
Proof.
  intros H. destruct s as [|c s']; [discriminate|].
  assert (Hc : is_digit c = true).
  { unfold isdigit in H. cbn in H. apply andb_prop in H. tauto. }
  destruct (is_digit_not_sign c Hc) as [Hm Hp].
  unfold py_int.
  rewrite (bool_decide_eq_false_2 _ Hm), (bool_decide_eq_false_2 _ Hp), H.
  reflexivity.
Qed.

Lemma bind_Ok {A B : Type} (a : A) (k : A -> result B) : (x ← Ok a; k x) = k a.
Proof. reflexivity. Qed.

Lemma to_notes_from_app (l1 l2 : list csv_record) (st : reader_state) :
  to_notes_from st (l1 ++ l2) = (st' ← to_notes_from st l1; to_notes_from st' l2).
Proof.
  revert st. induction l1 as [|r l1 IH]; intros st; cbn; [reflexivity|].
  destruct (to_notes_step st r) as [st'|e]; cbn; [apply IH | reflexivity].
Qed.

(** C8.  A [Note_off_c] row whose pitch has no entry in [active_notes]
    (and whose time column is an integer, as every event's is) leaves the
    note list and [active_notes] as they are and raises nothing; the notes
    of the whole stream are those of the stream without that row. *)
Theorem unmatched_off_is_ignored
    (st : reader_state) (record : csv_record) (field : string) (time : Z)
    (Htype : rec_type record = "Note_off_c")
    (Hnote : rec_note record = Some field)
    (Hdigit : isdigit field = true)
    (Htime : py_int (rec_time record) = Ok time)
    (Hclosed : active_notes st !! decimal_go 0 field = None) :
  to_notes_step st record = Ok st
  /\ forall (pre post : list csv_record),
       to_notes_from {| active_notes := ∅; notes := [] |} pre = Ok st ->
       to_notes (pre ++ record :: post) = to_notes (pre ++ post).
Proof.
  assert (Hstep : to_notes_step st record = Ok st).
  { assert (Hne : is_empty field = false).
    { unfold isdigit in Hdigit.
      destruct (is_empty field); [discriminate Hdigit | reflexivity]. }
    unfold to_notes_step. rewrite Hnote, Hne, Hdigit.
    cbn [orb negb]. rewrite (py_int_isdigit _ Hdigit), bind_Ok, Htime, bind_Ok.
    rewrite Htype.
    rewrite (bool_decide_eq_false_2 ("Note_off_c" = "Note_on_c")) by discriminate.
    rewrite (bool_decide_eq_true_2 ("Note_off_c" = "Note_off_c")) by reflexivity.
    rewrite Hclosed. reflexivity. }
  split; [exact Hstep|].
  intros pre post Hpre. unfold to_notes.
  rewrite !to_notes_from_app, Hpre. cbn. rewrite Hstep. reflexivity.
Qed.

Lemma unmatched_off_is_ignored_witness :
  to_notes_step one_open_note stray_off = Ok one_open_note.
Proof.
  apply (unmatched_off_is_ignored one_open_note stray_off "64" 120);
    reflexivity.
Defined.

(** ** Sorting *)

Section Sorting.
Context {A : Type}.

Lemma insert_sorted_perm (le : A -> A -> bool) (x : A) (l : list A) :
  insert_sorted le x l ≡ₚ x :: l.
Proof.
  induction l as [|y l IH]; cbn; [reflexivity|].
  destruct (le x y); [reflexivity|].
  rewrite IH. apply Permutation_swap.
Qed.

Lemma py_sorted_perm (le : A -> A -> bool) (l : list A) : py_sorted le l ≡ₚ l.
Proof.
  induction l as [|x l IH]; cbn; [reflexivity|].
  rewrite insert_sorted_perm. constructor. exact IH.
Qed.

Lemma elem_of_py_sorted (le : A -> A -> bool) (l : list A) (x : A) :
  x ∈ py_sorted le l <-> x ∈ l.
Proof. rewrite (py_sorted_perm le l). reflexivity. Qed.

Variable key : A -> Z.

Abbreviation key_le := (fun x y => key x <= key y).

Lemma insert_by_key_sorted (x : A) (l : list A) :
  StronglySorted key_le l ->
  StronglySorted key_le (insert_sorted (fun x y => key x <=? key y) x l).
Proof.
  induction 1 as [|y l Hsorted IH Hall]; cbn.
  - repeat constructor.
  - destruct (Z.leb_spec (key x) (key y)) as [Hle|Hgt].
    + constructor; [constructor; assumption|].
      constructor; [exact Hle|].
      eapply Forall_impl; [exact Hall|]. cbn. intros z Hz. lia.
    + constructor; [exact IH|].
      rewrite insert_sorted_perm. constructor; [lia | exact Hall].
Qed.

Lemma sorted_by_key_sorted (l : list A) :
  StronglySorted key_le (sorted_by_key key l).
Proof.
  unfold sorted_by_key, py_sorted.
  induction l as [|x l IH]; cbn; [constructor|].
  apply insert_by_key_sorted, IH.
Qed.

(** In a list sorted by key, whatever comes before an element has a key
    that is not larger. *)
Lemma sorted_before (pre post : list A) (x y : A) :
  StronglySorted key_le (pre ++ x :: post) -> y ∈ pre -> key y <= key x.
Proof.
  induction pre as [|z pre IH]; cbn; intros Hs Hy.
  - inversion Hy.
  - apply StronglySorted_inv in Hs as [Hs Hall].
    apply elem_of_cons in Hy as [->|Hy]; [|apply IH; assumption].
    rewrite Forall_forall in Hall. apply Hall.
    apply elem_of_app. right. left.
Qed.

Lemma exists_max_key (l : list A) :
  l <> [] -> exists x, x ∈ l /\ forall y, y ∈ l -> key y <= key x.
Proof.
  induction l as [|x l IH]; [congruence|]. intros _.
  destruct l as [|x' l'].
  - exists x. split; [left|]. intros y Hy.
    apply list_elem_of_singleton in Hy. subst. lia.
  - destruct IH as (m & Hm & Hmax); [discriminate|].
    destruct (Z.le_gt_cases (key m) (key x)) as [Hle|Hgt].
    + exists x. split; [left|]. intros y Hy.
      apply elem_of_cons in Hy as [->|Hy]; [lia|].
      specialize (Hmax y Hy). lia.
    + exists m. split; [right; exact Hm|]. intros y Hy.
      apply elem_of_cons in Hy as [->|Hy]; [lia|]. apply Hmax, Hy.
Qed.
End Sorting.

(** ** The alias deduplicator *)

(** Every pair of the first pass holds an alias with its own canonical
    set. *)
Lemma dedupe_pass_pairs (aliases : list string) (seen : gset (gset string)) :
  Forall (fun p => p.1 = clean_alias p.2) (dedupe_pass seen aliases).
Proof.
  revert seen. induction aliases as [|a rest IH]; intros seen; cbn; [constructor|].
  destruct (bool_decide _); [apply IH|].
  constructor; [reflexivity | apply IH].
Qed.

(** The canonical set of every alias of the input is met: either it was
    seen before, or the pass holds a pair with it. *)
Lemma dedupe_pass_covers (aliases : list string) (seen : gset (gset string)) (b : string) :
  b ∈ aliases ->
  clean_alias b ∈ seen
  \/ exists b', (clean_alias b, b') ∈ dedupe_pass seen aliases.
Proof.
  revert seen. induction aliases as [|a rest IH]; intros seen Hb; [inversion Hb|].
  cbn. apply elem_of_cons in Hb as [->|Hb].
  - destruct (bool_decide (clean_alias a ∈ seen)) eqn:Hseen.
    + left. apply bool_decide_eq_true in Hseen. exact Hseen.
    + right. exists a. left.
  - destruct (bool_decide (clean_alias a ∈ seen)) eqn:Hseen.
    + apply IH, Hb.
    + destruct (IH ({[clean_alias a]} ∪ seen) Hb) as [Hin|[b' Hb']].
      * apply elem_of_union in Hin as [Hin|Hin]; [|left; exact Hin].
        apply elem_of_singleton in Hin. right. exists a. rewrite Hin. left.
      * right. exists b'. right. exact Hb'.
Qed.

Lemma dedupe_pass_nonempty (aliases : list string) :
  aliases <> [] -> dedupe_pass ∅ aliases <> [].
Proof.
  destruct aliases as [|a rest]; [congruence|]. intros _. cbn.
  rewrite bool_decide_eq_false_2 by apply not_elem_of_empty. discriminate.
Qed.

Lemma any_superset_true (c : gset string) (l : list (gset string * string)) :
  any_superset c l = true <-> exists p, p ∈ l /\ c ⊂ p.1.
Proof.
  unfold any_superset. rewrite existsb_exists. split.
  - intros (p & Hin & Hsub). exists p. split; [apply list_elem_of_In, Hin|].
    apply bool_decide_eq_true in Hsub. exact Hsub.
  - intros (p & Hin & Hsub). exists p. split; [apply list_elem_of_In, Hin|].
    apply bool_decide_eq_true. exact Hsub.
Qed.

(** What the subset pass keeps: a pair with no strict superset among the
    pairs from its own position on. *)
Lemma remove_subsets_kept (l : list (gset string * string)) (a : string) :
  a ∈ remove_subsets l ->
  exists pre c post,
    l = pre ++ (c, a) :: post /\ any_superset c ((c, a) :: post) = false.
Proof.
  induction l as [|[c x] rest IH]; cbn -[any_superset]; intros Ha; [inversion Ha|].
  destruct (any_superset c ((c, x) :: rest)) eqn:Hany.
  - destruct (IH Ha) as (pre & c' & post & -> & Hno).
    exists ((c, x) :: pre), c', post. split; [reflexivity | exact Hno].
  - apply elem_of_cons in Ha as [->|Ha].
    + exists [], c, rest. split; [reflexivity | exact Hany].
    + destruct (IH Ha) as (pre & c' & post & -> & Hno).
      exists ((c, x) :: pre), c', post. split; [reflexivity | exact Hno].
Qed.

(** A pair that no pair of the list strictly contains is kept. *)
Lemma remove_subsets_keeps (l : list (gset string * string)) (c : gset string) (a : string) :
  (c, a) ∈ l ->
  (forall p, p ∈ l -> ~ c ⊂ p.1) ->
  a ∈ remove_subsets l.
Proof.
  induction l as [|[c' x] rest IH]; cbn -[any_superset]; intros Hin Hmax; [inversion Hin|].
  apply elem_of_cons in Hin as [Heq|Hin].
  - injection Heq as <- <-.
    destruct (any_superset c ((c, a) :: rest)) eqn:Hany; [|left].
    apply any_superset_true in Hany as (p & Hp & Hsub).
    exfalso. exact (Hmax p Hp Hsub).
  - assert (Hrest : a ∈ remove_subsets rest).
    { apply IH; [exact Hin|]. intros p Hp. apply Hmax. right. exact Hp. }
    destruct (any_superset c' ((c', x) :: rest)); [exact Hrest | right; exact Hrest].
Qed.

(** On a list sorted by size, what the subset pass keeps has no strict
    superset anywhere in the list. *)
Lemma remove_subsets_sorted (l : list (gset string * string)) (a : string) :
  StronglySorted (fun x y => len_key x <= len_key y) l ->
  a ∈ remove_subsets l ->
  exists c, (c, a) ∈ l /\ forall p, p ∈ l -> ~ c ⊂ p.1.
Proof.
  intros Hsorted Ha.
  destruct (remove_subsets_kept l a Ha) as (pre & c & post & -> & Hno).
  exists c. split; [apply elem_of_app; right; left|].
  intros p Hp Hsub.
  apply elem_of_app in Hp as [Hp|Hp].
  - pose proof (sorted_before len_key pre post (c, a) p Hsorted Hp) as Hle.
    apply subset_size in Hsub. unfold len_key in Hle. cbn in Hle. lia.
  - assert (Hany : any_superset c ((c, a) :: post) = true)
      by (apply any_superset_true; exists p; split; assumption).
    congruence.
Qed.

(** The aliases of the output, through the two sorts. *)
Lemma elem_of_deduplicate_aliases (aliases : list string) (a : string) :
  a ∈ deduplicate_aliases aliases
  <-> a ∈ remove_subsets (sorted_by_key len_key (dedupe_pass ∅ aliases)).
Proof. unfold deduplicate_aliases, sorted_strings. apply elem_of_py_sorted. Qed.

Lemma elem_of_sorted_pass (aliases : list string) (p : gset string * string) :
  p ∈ sorted_by_key len_key (dedupe_pass ∅ aliases) <-> p ∈ dedupe_pass ∅ aliases.
Proof. unfold sorted_by_key. apply elem_of_py_sorted. Qed.

(** An alias of the output sits in a pair of the first pass whose set, its
    own canonical set, no pair of the first pass strictly contains. *)
Lemma deduplicate_aliases_maximal (aliases : list string) (a : string) :
  a ∈ deduplicate_aliases aliases ->
  (clean_alias a, a) ∈ dedupe_pass ∅ aliases
  /\ forall p, p ∈ dedupe_pass ∅ aliases -> ~ clean_alias a ⊂ p.1.
Proof.
  intros Ha. apply elem_of_deduplicate_aliases in Ha.
  apply remove_subsets_sorted in Ha as (c & Hin & Hmax);
    [|apply sorted_by_key_sorted].
  apply elem_of_sorted_pass in Hin.
  pose proof (dedupe_pass_pairs aliases ∅) as Hpairs.
  rewrite Forall_forall in Hpairs.
  pose proof (Hpairs _ Hin) as Hc. cbn in Hc. subst c.
  split; [exact Hin|].
  intros p Hp. apply Hmax, elem_of_sorted_pass, Hp.
Qed.

(** C4.  If the pairs of [a] and of [b] both survive the first pass and
    the canonical set of [a] is a strict subset of that of [b], then [a] is
    not in the output. *)
Theorem strict_subset_alias_dropped (aliases : list string) (a b : string) :
  (clean_alias a, a) ∈ dedupe_pass ∅ aliases ->
  (clean_alias b, b) ∈ dedupe_pass ∅ aliases ->
  clean_alias a ⊂ clean_alias b ->
  a ∉ deduplicate_aliases aliases.
Proof.
  intros _ Hb Hsub Ha.
  apply deduplicate_aliases_maximal in Ha as [_ Hmax].
  exact (Hmax _ Hb Hsub).
Qed.

Lemma strict_subset_alias_dropped_witness :
  "blackbird" ∉ deduplicate_aliases ["blackbird"; "blackbird reel"].
Proof.
  apply (strict_subset_alias_dropped ["blackbird"; "blackbird reel"]
           "blackbird" "blackbird reel").
  - apply (bool_decide_unpack _). vm_compute. exact I.
  - apply (bool_decide_unpack _). vm_compute. exact I.
  - apply (bool_decide_unpack _). vm_compute. exact I.
Defined.

(** C6, as stated, fails: nothing filters an alias whose canonical set is
    empty; when no other alias is there to contain it, it is the output. *)
Lemma empty_alias_survives_alone :
  clean_alias "" = ∅
  /\ clean_alias " The " = ∅
  /\ deduplicate_aliases [""] = [""]
  /\ deduplicate_aliases [" The "; "of the"; "!"] = [" The "].
Proof. repeat split; vm_compute; reflexivity. Qed.

(** C6, amended.  If some alias of the input has a non-empty canonical
    set, then no alias whose canonical set is empty is in the output. *)
Theorem empty_alias_dropped_beside_wordy_one (aliases : list string) (a b : string) :
  b ∈ aliases ->
  clean_alias b <> ∅ ->
  clean_alias a = ∅ ->
  a ∉ deduplicate_aliases aliases.
Proof.
  intros Hb Hwordy Hempty Ha.
  apply deduplicate_aliases_maximal in Ha as [_ Hmax].
  destruct (dedupe_pass_covers aliases ∅ b Hb) as [Hseen|[b' Hb']].
  - apply not_elem_of_empty in Hseen. exact Hseen.
  - apply (Hmax _ Hb'). cbn. rewrite Hempty.
    split; [apply empty_subseteq|].
    intros Hsub. apply Hwordy.
    apply leibniz_equiv, elem_of_equiv_empty. intros x Hx.
    apply Hsub in Hx. apply not_elem_of_empty in Hx. exact Hx.
Qed.

Lemma empty_alias_dropped_beside_wordy_one_witness :
  " The " ∉ deduplicate_aliases [" The "; "the blackbird"].
Proof.
  apply (empty_alias_dropped_beside_wordy_one [" The "; "the blackbird"]
           " The " "the blackbird").
  - apply (bool_decide_unpack _). vm_compute. exact I.
  - apply (bool_decide_unpack _). vm_compute. exact I.
  - vm_compute. reflexivity.
Defined.

(** C10.  A non-empty alias list gives a non-empty output: a pair of the
    first pass whose canonical set is of maximal size is kept by the subset
    pass, and there is such a pair. *)
Theorem deduplicate_aliases_nonempty (aliases : list string) :
  aliases <> [] ->
  deduplicate_aliases aliases <> []
  /\ forall (c : gset string) (a : string),
       (c, a) ∈ dedupe_pass ∅ aliases ->
       (forall p, p ∈ dedupe_pass ∅ aliases -> (size p.1 <= size c)%nat) ->
       a ∈ deduplicate_aliases aliases.
Proof.
  intros Hne.
  assert (Hkeep : forall (c : gset string) (a : string),
             (c, a) ∈ dedupe_pass ∅ aliases ->
             (forall p, p ∈ dedupe_pass ∅ aliases -> (size p.1 <= size c)%nat) ->
             a ∈ deduplicate_aliases aliases).
  { intros c a Hin Hmax.
    apply elem_of_deduplicate_aliases.
    apply (remove_subsets_keeps _ c); [apply elem_of_sorted_pass, Hin|].
    intros p Hp Hsub. apply elem_of_sorted_pass in Hp.
    apply subset_size in Hsub. specialize (Hmax p Hp). lia. }
  split; [|exact Hkeep].
  destruct (exists_max_key len_key (dedupe_pass ∅ aliases))
    as ([c a] & Hin & Hmax); [apply dedupe_pass_nonempty, Hne|].
  assert (Ha : a ∈ deduplicate_aliases aliases).
  { apply (Hkeep c a Hin). intros p Hp.
    specialize (Hmax p Hp). unfold len_key in Hmax. cbn in Hmax. lia. }
  intros Hnil. rewrite Hnil in Ha. inversion Ha.
Qed.

Lemma deduplicate_aliases_nonempty_witness :
  deduplicate_aliases ["the blackbird"; "blackbird reel"; "blackbird"] <> [].
Proof.
  apply (deduplicate_aliases_nonempty ["the blackbird"; "blackbird reel"; "blackbird"]).
  discriminate.
Defined.

(** ** The alias cleaner *)

(** C7, as stated, fails: the plural rule takes one [s] at a time, so a
    word with two of them loses the second on the second pass; and a word
    that becomes a stop word by losing its [s] is dropped on the second
    pass. *)
Lemma clean_alias_not_idempotent :
  reclean (clean_alias "glass") <> clean_alias "glass"
  /\ elements (clean_alias "glass") = ["glas"]
  /\ elements (reclean (clean_alias "glass")) = ["gla"]
  /\ elements (clean_alias "Ass") = ["as"]
  /\ elements (reclean (clean_alias "Ass")) = [].
Proof.
  split; [|repeat split; vm_compute; reflexivity].
  intros H. apply (f_equal elements) in H. vm_compute in H. discriminate H.
Qed.

Lemma string_forall_app (p : ascii -> bool) (s t : string) :
  string_forall p (s +:+ t) = string_forall p s && string_forall p t.
Proof.
  induction s as [|c s IH]; cbn; [reflexivity|].
  change (String c s +:+ t) with (String c (s +:+ t)). cbn.
  rewrite IH. apply andb_assoc.
Qed.

Lemma app_empty_r (s : string) : s +:+ "" = s.
Proof.
  induction s as [|c s IH]; [reflexivity|].
  change (String c s +:+ "") with (String c (s +:+ "")). rewrite IH. reflexivity.
Qed.

Lemma app_snoc_cons (w : string) (c : ascii) (s : string) :
  (w +:+ String c "") +:+ s = w +:+ String c s.
Proof.
  induction w as [|d w IH]; [reflexivity|].
  change ((String d w +:+ String c "") +:+ s)
    with (String d ((w +:+ String c "") +:+ s)).
  rewrite IH. reflexivity.
Qed.

Lemma word_char_lowered (c : ascii) :
  is_word_char (lower_char c) = true -> small_or_blank (lower_char c) = true.
Proof. destruct c as [[] [] [] [] [] [] [] []]; vm_compute; congruence. Qed.

Lemma small_not_space (c : ascii) :
  small_or_blank c = true -> is_space c = false -> is_lower c = true.
Proof. destruct c as [[] [] [] [] [] [] [] []]; vm_compute; congruence. Qed.

Lemma lower_char_small (c : ascii) : is_lower c = true -> lower_char c = c.
Proof. destruct c as [[] [] [] [] [] [] [] []]; vm_compute; congruence. Qed.

Lemma small_is_word_char (c : ascii) : is_lower c = true -> is_word_char c = true.
Proof. unfold is_word_char. intros ->. reflexivity. Qed.

Lemma small_is_not_space (c : ascii) : is_lower c = true -> is_space c = false.
Proof. destruct c as [[] [] [] [] [] [] [] []]; vm_compute; congruence. Qed.

Lemma stripped_small_or_blank (s : string) :
  string_forall small_or_blank (string_filter is_word_char (lower s)) = true.
Proof.
  induction s as [|c s IH]; cbn; [reflexivity|].
  destruct (is_word_char (lower_char c)) eqn:Hc; [|exact IH].
  cbn. rewrite (word_char_lowered c Hc). exact IH.
Qed.

Lemma split_go_small (s w : string) :
  string_forall is_lower w = true ->
  string_forall small_or_blank s = true ->
  Forall (fun x => string_forall is_lower x = true) (split_go w s).
Proof.
  revert w. induction s as [|c s IH]; intros w Hw Hs; cbn.
  - destruct (is_empty w); repeat constructor. exact Hw.
  - cbn in Hs. apply andb_prop in Hs as [Hc Hs].
    destruct (is_space c) eqn:Hsp.
    + destruct (is_empty w); [apply IH; [reflexivity | exact Hs]|].
      constructor; [exact Hw | apply IH; [reflexivity | exact Hs]].
    + apply IH; [|exact Hs].
      rewrite string_forall_app, Hw. cbn.
      rewrite (small_not_space c Hc Hsp). reflexivity.
Qed.

Lemma drop_last_small (w : string) :
  string_forall is_lower w = true -> string_forall is_lower (drop_last w) = true.
Proof.
  induction w as [|c w IH]; [reflexivity|].
  intros H. cbn in H. apply andb_prop in H as [Hc Hw].
  destruct w as [|d w]; [reflexivity|].
  change (drop_last (String c (String d w))) with (String c (drop_last (String d w))).
  cbn [string_forall]. rewrite Hc. exact (IH Hw).
Qed.

(** Every word of [clean_words] is made of small letters and is not the
    American spelling. *)
Lemma clean_words_small (alias : string) :
  Forall (fun w => string_forall is_lower w = true /\ w <> "favorite")
         (clean_words alias).
Proof.
  unfold clean_words.
  pose proof (split_go_small (string_filter is_word_char (lower alias)) ""
                eq_refl (stripped_small_or_blank alias)) as Hsplit.
  fold (split (string_filter is_word_char (lower alias))) in Hsplit.
  rewrite Forall_forall in Hsplit. rewrite Forall_forall.
  intros w Hw.
  apply list_elem_of_fmap in Hw as (x & -> & Hx).
  apply list_elem_of_fmap in Hx as (y & -> & Hy).
  apply list_elem_of_filter in Hy as [_ Hy].
  assert (Hstrip : string_forall is_lower (strip_plural y) = true).
  { unfold strip_plural. destruct (endswith_s y); [|exact (Hsplit y Hy)].
    apply drop_last_small, (Hsplit y Hy). }
  unfold british. destruct (bool_decide (strip_plural y = "favorite")) eqn:Hfav.
  - split; [reflexivity | discriminate].
  - split; [exact Hstrip|]. apply bool_decide_eq_false in Hfav. exact Hfav.
Qed.

Lemma lower_small (w : string) : string_forall is_lower w = true -> lower w = w.
Proof.
  induction w as [|c w IH]; [reflexivity|]. cbn.
  intros H. apply andb_prop in H as [Hc Hw].
  rewrite (lower_char_small c Hc). fold (lower w). rewrite (IH Hw). reflexivity.
Qed.

Lemma filter_small (w : string) :
  string_forall is_lower w = true -> string_filter is_word_char w = w.
Proof.
  induction w as [|c w IH]; [reflexivity|]. cbn.
  intros H. apply andb_prop in H as [Hc Hw].
  rewrite (small_is_word_char c Hc), (IH Hw). reflexivity.
Qed.

Lemma split_go_word (s w : string) :
  string_forall is_lower s = true ->
  is_empty (w +:+ s) = false ->
  split_go w s = [w +:+ s].
Proof.
  revert w. induction s as [|c s IH]; intros w Hs Hne; cbn.
  - rewrite app_empty_r in Hne |- *. rewrite Hne. reflexivity.
  - cbn in Hs. apply andb_prop in Hs as [Hc Hs].
    rewrite (small_is_not_space c Hc).
    rewrite IH; [rewrite app_snoc_cons; reflexivity | exact Hs |].
    rewrite app_snoc_cons. exact Hne.
Qed.

(** A stable word of small letters is its own canonical set. *)
Lemma clean_alias_stable_word (w : string) :
  string_forall is_lower w = true ->
  w <> "favorite" ->
  stable_word w = true ->
  clean_alias w = {[ w ]}.
Proof.
  intros Hsmall Hfav Hstable.
  unfold stable_word in Hstable.
  apply andb_prop in Hstable as [Hstable Hs].
  apply andb_prop in Hstable as [Hne Hstop].
  assert (Hwords : clean_words w = [w]).
  { unfold clean_words. rewrite (lower_small w Hsmall), (filter_small w Hsmall).
    unfold split. rewrite (split_go_word w "" Hsmall);
      [|destruct w; [discriminate Hne | reflexivity]].
    change ("" +:+ w) with w.
    rewrite filter_cons_True
      by (unfold keep_word; rewrite Hne, Hstop; reflexivity).
    rewrite filter_nil. cbn.
    unfold strip_plural. destruct (endswith_s w); [discriminate Hs|].
    unfold british. rewrite bool_decide_eq_false_2 by exact Hfav. reflexivity. }
  unfold clean_alias. rewrite Hwords. cbn. apply (right_id_L ∅ (∪)).
Qed.

(** C7, amended.  When every word of the canonical set of an alias is
    stable (not empty, not a stop word, without a final [s]), re-cleaning
    the words gives the canonical set again. *)
Theorem clean_alias_idempotent_on_stable_words (alias : string) :
  forallb stable_word (elements (clean_alias alias)) = true ->
  reclean (clean_alias alias) = clean_alias alias.
Proof.
  intros Hstable. rewrite forallb_forall in Hstable.
  assert (Hfix : forall w, w ∈ clean_alias alias -> clean_alias w = {[ w ]}).
  { intros w Hw.
    pose proof (clean_words_small alias) as Hsmall.
    rewrite Forall_forall in Hsmall.
    assert (Hin : w ∈ clean_words alias)
      by (unfold clean_alias in Hw; apply elem_of_list_to_set in Hw; exact Hw).
    destruct (Hsmall w Hin) as [Hlow Hfav].
    apply clean_alias_stable_word; [exact Hlow | exact Hfav |].
    apply Hstable, list_elem_of_In, elem_of_elements, Hw. }
  apply leibniz_equiv. intros x. unfold reclean.
  rewrite elem_of_union_list. split.
  - intros (X & HX & Hx).
    apply list_elem_of_fmap in HX as (w & -> & Hw).
    apply elem_of_elements in Hw.
    rewrite (Hfix w Hw) in Hx. apply elem_of_singleton in Hx. subst x. exact Hw.
  - intros Hx. exists (clean_alias x). split.
    + apply list_elem_of_fmap. exists x. split; [reflexivity|].
      apply elem_of_elements, Hx.
    + rewrite (Hfix x Hx). apply elem_of_singleton. reflexivity.
Qed.

Lemma clean_alias_idempotent_on_stable_words_witness :
  reclean (clean_alias "The Blackbird's Favorite") = clean_alias "The Blackbird's Favorite".
Proof.
  apply (clean_alias_idempotent_on_stable_words "The Blackbird's Favorite").
  vm_compute. reflexivity.
Defined.

(** ** gather_aliases *)

(** C3 on the code.  The name is put in front only when the list does not
    already start with it; an occurrence further down is left in place, so
    here the name is stored twice. *)
Theorem name_stored_twice :
  deduplicate_aliases ["apple"; "zed reel"] = ["apple"; "zed reel"]
  /\ (aliases ← gather_aliases zed_reel_aliases zed_reel_settings;
      mret (aliases !! "1"))
     = Ok (Some ["zed reel"; "apple"; "zed reel"]).
Proof. split; vm_compute; reflexivity. Qed.

(* ===================================================================== *)
(** * Further properties                                                  *)
(* ===================================================================== *)

(** ** The two clocks of the quantizer *)

Section Clocks.
Variables (factor : Q) (start_seconds end_seconds : option Q).
Hypothesis Hfactor : (0 < factor)%Q.

Lemma quaver_duration_pos : (0 < quaver_duration factor)%Q.
Proof.
  unfold quaver_duration, duration, note_end, note_start. cbn.
  change (inject_Z 240) with 240%Q. change (inject_Z 0) with 0%Q. lra.
Qed.

Lemma rel_duration_times_quaver (note : Note) :
  (duration factor note / quaver_duration factor * quaver_duration factor
   == duration factor note)%Q.
Proof.
  pose proof quaver_duration_pos as Hq. field. intros H0. rewrite H0 in Hq.
  exact (Qlt_irrefl 0 Hq).
Qed.

(** The number of symbols a step appends, and the time it adds to
    [output_time], when the note reaches the emission step behind
    schedule. *)
Lemma emit_appends (m o : Q) (c : list Z) (note : Note) :
  (o < m)%Q ->
  (0 < duration factor note)%Q ->
  exists k : Z,
    (0 < k)%Z
    /\ midi_contour (emit factor m o c note).2 = c ++ repeat_symbol (rel_pitch note) k
    /\ (output_time (emit factor m o c note).2 == o + inject_Z k * quaver_duration factor)%Q
    /\ (duration factor note <= inject_Z k * quaver_duration factor)%Q
    /\ (inject_Z k * quaver_duration factor
        < duration factor note + quaver_duration factor)%Q
    /\ music_time (emit factor m o c note).2 = m.
Proof.
  intros Hbehind Hd.
  pose proof quaver_duration_pos as Hq.
  pose proof (rel_duration_times_quaver note) as Hrq.
  unfold emit.
  set (d := duration factor note) in *.
  set (q := quaver_duration factor) in *.
  set (r := (d / q)%Q) in *.
  assert (Hr : (0 < r)%Q).
  { apply (Qmult_lt_r 0 r q Hq). rewrite Hrq. lra. }
  clearbody r q d.
  destruct (is_integer r) eqn:Hint.
  - assert (Hint' : (r == inject_Z (Qfloor r))%Q) by exact (Qeq_bool_eq _ _ Hint).
    assert (Hkq : (inject_Z (Qfloor r) * q == d)%Q)
      by (rewrite <- Hrq; apply Qmult_comp; [symmetry; exact Hint' | reflexivity]).
    exists (Qfloor r). cbn.
    split; [rewrite Zlt_Qlt; change (inject_Z 0) with 0%Q; lra|].
    split; [reflexivity|].
    split; [lra|]. split; [lra|]. split; [lra | reflexivity].
  - destruct (py_lt r 1) eqn:Hshort.
    + assert (Hlt : (r < 1)%Q).
      { unfold py_lt in Hshort. apply Qlt_alt.
        destruct (r ?= 1)%Q; congruence. }
      apply (Qmult_lt_compat_r r 1 q Hq) in Hlt.
      exists 1%Z. cbn. change (inject_Z 1) with 1%Q.
      split; [lia|]. split; [reflexivity|].
      split; [lra|]. split; [lra|]. split; [lra | reflexivity].
    + assert (Hgt : py_gt m o = true).
      { unfold py_gt. apply Qgt_alt in Hbehind. rewrite Hbehind. reflexivity. }
      rewrite Hgt. cbn.
      pose proof (Qle_ceiling r) as Hceil.
      assert (Hkq : (r * q <= inject_Z (Qceiling r) * q)%Q)
        by (apply Qmult_le_compat_r; [exact Hceil | lra]).
      pose proof (Qceiling_lt r) as Hup.
      unfold Z.sub in Hup. rewrite inject_Z_plus in Hup.
      change (inject_Z (-1)) with (-1)%Q in Hup.
      assert (Hkq' : ((inject_Z (Qceiling r) + -1) * q < r * q)%Q)
        by (apply Qmult_lt_compat_r; [exact Hq | exact Hup]).
      rewrite Qmult_plus_distr_l in Hkq'.
      exists (Qceiling r).
      split; [rewrite Zlt_Qlt; change (inject_Z 0) with 0%Q; lra|].
      split; [reflexivity|].
      split; [reflexivity|]. split; [lra|]. split; [lra | reflexivity].
Qed.

Lemma emit_is_emission (m o : Q) (c : list Z) (note : Note) :
  is_emission (emit factor m o c note).1 = true.
Proof.
  unfold emit. destruct (is_integer _); [reflexivity|].
  destruct (py_lt _ 1); reflexivity.
Qed.

(** What one iteration does to the loop variables, by the branch taken. *)
Lemma step_cases (st : qstate) (note : Note) :
  (music_time st <= output_time st)%Q ->
  let b := (quantize_step factor start_seconds end_seconds st note).1 in
  let st' := (quantize_step factor start_seconds end_seconds st note).2 in
  (* the two skips and the break *)
  (is_emission b = false
   /\ (music_time st' <= output_time st')%Q
   /\ midi_contour st' = midi_contour st
   /\ (before_window factor start_seconds note = false ->
       (output_time st' == output_time st)%Q)
   /\ ((0 <= duration factor note)%Q ->
       (output_time st' - music_time st' <= output_time st - music_time st)%Q))
  \/ (* an emission *)
  (is_emission b = true
   /\ exists k : Z,
      (0 < k)%Z
      /\ before_window factor start_seconds note = false
      /\ midi_contour st' = midi_contour st ++ repeat_symbol (rel_pitch note) k
      /\ (output_time st' == output_time st + inject_Z k * quaver_duration factor)%Q
      /\ (duration factor note <= inject_Z k * quaver_duration factor)%Q
      /\ (inject_Z k * quaver_duration factor
          < duration factor note + quaver_duration factor)%Q
      /\ (output_time st' - music_time st'
          < duration factor note + quaver_duration factor)%Q
      /\ (music_time st' <= output_time st')%Q).
Proof.
  intros Hinv. unfold quantize_step.
  destruct (before_window factor start_seconds note) eqn:Hbefore.
  { left. cbn. split; [reflexivity|]. split; [apply Qle_refl|].
    split; [reflexivity|]. split; [discriminate|]. intros _. lra. }
  destruct (after_window factor end_seconds note).
  { left. cbn. split; [reflexivity|]. split; [exact Hinv|].
    split; [reflexivity|]. split; [intros _; reflexivity|]. intros _. apply Qle_refl. }
  destruct (py_le _ _) eqn:Hle.
  { left. cbn. split; [reflexivity|]. split; [apply Qle_bool_iff, Hle|].
    split; [reflexivity|]. split; [intros _; reflexivity|]. intros Hd. lra. }
  right. split; [apply emit_is_emission|].
  assert (Hbehind : (output_time st < music_time st + duration factor note)%Q).
  { apply py_gt_true, py_le_false_gt, Hle. }
  assert (Hd : (0 < duration factor note)%Q) by lra.
  destruct (emit_appends _ _ (midi_contour st) note Hbehind Hd)
    as (k & Hk & Hc & Ho & Hdk & Hup & Hm).
  exists k. split; [exact Hk|]. split; [reflexivity|].
  split; [exact Hc|]. split; [exact Ho|].
  split; [exact Hdk|]. split; [exact Hup|].
  rewrite Hm, Ho. split; lra.
Qed.

Lemma step_keeps_order (st : qstate) (note : Note) :
  (music_time st <= output_time st)%Q ->
  (music_time (quantize_step factor start_seconds end_seconds st note).2
   <= output_time (quantize_step factor start_seconds end_seconds st note).2)%Q.
Proof.
  intros Hinv.
  destruct (step_cases st note Hinv)
    as [(_ & H & _)|(_ & k & _ & _ & _ & _ & _ & _ & _ & H)];
    exact H.
Qed.

Lemma walk_keeps_order (notes : list Note) (st : qstate) :
  (music_time st <= output_time st)%Q ->
  Forall (fun e => (music_time e.2 <= output_time e.2)%Q)
         (walk factor start_seconds end_seconds st notes).
Proof.
  revert st. induction notes as [|note rest IH]; intros st Hinv; cbn; [constructor|].
  pose proof (step_keeps_order st note Hinv) as Hstep.
  destruct (quantize_step factor start_seconds end_seconds st note) as [b st'].
  cbn in Hstep.
  destruct b; try (constructor; [exact Hstep | apply IH, Hstep]).
  constructor; [exact Hstep | constructor].
Qed.

Lemma step_keeps_count (st : qstate) (note : Note) :
  before_window factor start_seconds note = false ->
  (music_time st <= output_time st)%Q ->
  (output_time st == symbols_time factor st)%Q ->
  (output_time (quantize_step factor start_seconds end_seconds st note).2
   == symbols_time factor (quantize_step factor start_seconds end_seconds st note).2)%Q.
Proof.
  intros Hbefore Hinv Hcount. unfold symbols_time in *.
  destruct (step_cases st note Hinv)
    as [(_ & _ & Hc & Ho & _)|(_ & k & Hk & _ & Hc & Ho & _)].
  - rewrite Hc, (Ho Hbefore). exact Hcount.
  - rewrite Hc, Ho, Hcount. unfold repeat_symbol.
    rewrite length_app, length_replicate, Nat2Z.inj_add, Z2Nat.id by lia.
    rewrite inject_Z_plus. ring.
Qed.

Lemma walk_keeps_count (notes : list Note) (st : qstate) :
  truthy start_seconds = false ->
  (music_time st <= output_time st)%Q ->
  (output_time st == symbols_time factor st)%Q ->
  Forall (fun e => (output_time e.2 == symbols_time factor e.2)%Q)
         (walk factor start_seconds end_seconds st notes).
Proof.
  intros Hunset. revert st.
  induction notes as [|note rest IH]; intros st Hinv Hcount; cbn; [constructor|].
  assert (Hbefore : before_window factor start_seconds note = false).
  { unfold before_window. destruct start_seconds; [|reflexivity].
    rewrite Hunset. reflexivity. }
  pose proof (step_keeps_order st note Hinv) as Hstep.
  pose proof (step_keeps_count st note Hbefore Hinv Hcount) as Hstep'.
  destruct (quantize_step factor start_seconds end_seconds st note) as [b st'].
  cbn in Hstep, Hstep'.
  destruct b; try (constructor; [exact Hstep' | apply IH; assumption]).
  constructor; [exact Hstep' | constructor].
Qed.

End Clocks.

(** X2.  At a positive tempo the output clock never falls behind the music
    clock: if [music_time <= output_time] holds when the walk starts, as it
    does initially, it holds after every iteration. *)
Theorem output_never_behind
    (factor : Q) (start_seconds end_seconds : option Q)
    (st : qstate) (notes : list Note) :
  (0 < factor)%Q ->
  (music_time st <= output_time st)%Q ->
  Forall (fun e => (music_time e.2 <= output_time e.2)%Q)
         (walk factor start_seconds end_seconds st notes).
Proof. intros Hfactor Hinv. apply walk_keeps_order; assumption. Qed.

Lemma output_never_behind_witness :
  Forall (fun e => (music_time e.2 <= output_time e.2)%Q)
         (walk 1 None None initial_qstate [long_note; long_note]).
Proof.
  apply (output_never_behind 1 None None initial_qstate [long_note; long_note]).
  - reflexivity.
  - discriminate.
Defined.

Lemma default_factor_pos (factor : Q) : (factor == 1)%Q -> (0 < factor)%Q.
Proof. intros Hfactor. rewrite Hfactor. reflexivity. Qed.

(** X3.  At the default tempo of 125, where the scale factor is 1 and all
    times are whole numbers of ticks, and without a window start,
    [output_time] is, after every iteration, exactly the number of symbols
    emitted so far times the duration of a quaver. *)
Theorem output_time_counts_symbols
    (factor : Q) (start_seconds end_seconds : option Q) (notes : list Note) :
  (factor == 1)%Q ->
  truthy start_seconds = false ->
  Forall (fun e => (output_time e.2 == symbols_time factor e.2)%Q)
         (walk factor start_seconds end_seconds initial_qstate notes).
Proof.
  intros Hfactor Hunset.
  apply walk_keeps_count; try assumption.
  - apply default_factor_pos, Hfactor.
  - apply Qle_refl.
  - unfold symbols_time. cbn. ring.
Qed.

Lemma output_time_counts_symbols_witness :
  Forall (fun e => (output_time e.2 == symbols_time 1 e.2)%Q)
         (walk 1 (Some 0%Q) None initial_qstate [long_note; long_note]).
Proof.
  apply (output_time_counts_symbols 1 (Some 0%Q) None [long_note; long_note]).
  - reflexivity.
  - reflexivity.
Defined.

(** X4.  At the default tempo of 125, where the scale factor is 1 and all
    times are whole numbers of ticks, a note that reaches the emission step
    while the output clock is not behind gets at least one symbol, all of
    them its own folded pitch, and the time they stand for is at least the
    duration of the note and less than that duration plus a quaver. *)
Theorem emitted_note_is_rounded_up
    (factor : Q) (start_seconds end_seconds : option Q)
    (st : qstate) (note : Note) :
  (factor == 1)%Q ->
  (music_time st <= output_time st)%Q ->
  is_emission (quantize_step factor start_seconds end_seconds st note).1 = true ->
  exists k : Z,
    (0 < k)%Z
    /\ midi_contour (quantize_step factor start_seconds end_seconds st note).2
       = midi_contour st ++ repeat_symbol (rel_pitch note) k
    /\ (duration factor note <= inject_Z k * quaver_duration factor)%Q
    /\ (inject_Z k * quaver_duration factor
        < duration factor note + quaver_duration factor)%Q.
Proof.
  intros Hfactor Hinv Hem.
  destruct (step_cases factor start_seconds end_seconds
              (default_factor_pos factor Hfactor) st note Hinv)
    as [(Hno & _)|(_ & k & Hk & _ & Hc & _ & Hlow & Hup & _)].
  - rewrite Hem in Hno. discriminate.
  - exists k. repeat split; assumption.
Qed.

Lemma emitted_note_is_rounded_up_witness :
  exists k : Z,
    (0 < k)%Z
    /\ midi_contour (quantize_step 1 None None initial_qstate long_note).2
       = midi_contour initial_qstate ++ repeat_symbol (rel_pitch long_note) k
    /\ (duration 1 long_note <= inject_Z k * quaver_duration 1)%Q
    /\ (inject_Z k * quaver_duration 1
        < duration 1 long_note + quaver_duration 1)%Q.
Proof.
  apply (emitted_note_is_rounded_up 1 None None initial_qstate long_note).
  - reflexivity.
  - discriminate.
  - reflexivity.
Defined.



(** ** The contour string *)

Lemma rel_pitch_range (n : Note) : 0 < rel_pitch n < MIDI_NUM - 1.
Proof.
  unfold rel_pitch, folded_pitch.
  destruct (raise_octaves_spec (pitch n)) as (Hlow & _ & _).
  destruct (lower_octaves_spec (raise_octaves (pitch n))) as (Hhigh & _ & Hmin).
  unfold MIDI_NUM, MIDI_LOW, MIDI_HIGH in *. lia.
Qed.

Lemma step_appends_rel_pitch
    (factor : Q) (start_seconds end_seconds : option Q) (st : qstate) (note : Note) :
  exists k : nat,
    midi_contour (quantize_step factor start_seconds end_seconds st note).2
    = midi_contour st ++ replicate k (rel_pitch note).
Proof.
  unfold quantize_step.
  destruct (before_window _ _ _); [exists 0%nat; cbn; rewrite app_nil_r; reflexivity|].
  destruct (after_window _ _ _); [exists 0%nat; cbn; rewrite app_nil_r; reflexivity|].
  destruct (py_le _ _); [exists 0%nat; cbn; rewrite app_nil_r; reflexivity|].
  unfold emit, repeat_symbol.
  destruct (is_integer _); [eexists; reflexivity|].
  destruct (py_lt _ 1); [exists 1%nat; reflexivity | eexists; reflexivity].
Qed.

Lemma run_contour_in_range
    (factor : Q) (start_seconds end_seconds : option Q) (notes : list Note) (st : qstate) :
  Forall (fun x => 0 < x < MIDI_NUM - 1) (midi_contour st) ->
  Forall (fun x => 0 < x < MIDI_NUM - 1)
         (midi_contour (run factor start_seconds end_seconds st notes)).
Proof.
  revert st. induction notes as [|note rest IH]; intros st Hst; cbn; [exact Hst|].
  destruct (step_appends_rel_pitch factor start_seconds end_seconds st note) as [k Hk].
  destruct (quantize_step factor start_seconds end_seconds st note) as [b st'].
  cbn in Hk.
  assert (Hst' : Forall (fun x => 0 < x < MIDI_NUM - 1) (midi_contour st')).
  { rewrite Hk. apply Forall_app. split; [exact Hst|].
    apply Forall_replicate, rel_pitch_range. }
  destruct b; try (apply IH, Hst'). exact Hst.
Qed.

Lemma string_get_lt (s : string) (i : nat) :
  (i < String.length s)%nat -> exists c, String.get i s = Some c.
Proof.
  revert i. induction s as [|c s IH]; intros i Hi; cbn in Hi; [lia|].
  destruct i as [|i]; cbn; [exists c; reflexivity|]. apply IH. lia.
Qed.

Lemma str_index_in_range (s : string) (n : Z) :
  0 <= n < Z.of_nat (String.length s) -> exists c, str_index s n = Ok c.
Proof.
  intros Hn. unfold str_index.
  destruct (Z.ltb_spec n 0) as [Hneg|_]; [lia|].
  destruct (Z.leb_spec 0 n) as [_|Hneg]; [|lia].
  destruct (Z.ltb_spec n (Z.of_nat (String.length s))) as [_|Hbig]; [|lia].
  cbn. destruct (string_get_lt s (Z.to_nat n)) as [c Hc]; [lia|].
  rewrite Hc. exists c. reflexivity.
Qed.

Lemma mapM_ok {A B : Type} (f : A -> result B) (l : list A) :
  Forall (fun x => exists y, f x = Ok y) l ->
  exists ys, mapM f l = Ok ys /\ length ys = length l.
Proof.
  induction 1 as [|x l [y Hy] _ (ys & Hys & Hlen)]; cbn.
  - exists []. split; reflexivity.
  - rewrite Hy. cbn. rewrite Hys. cbn.
    exists (y :: ys). split; [reflexivity | cbn; rewrite Hlen; reflexivity].
Qed.

Lemma join_chars_length (l : list ascii) : String.length (join_chars l) = length l.
Proof. induction l as [|c l IH]; cbn; [reflexivity | f_equal; exact IH]. Qed.

Lemma ms_scale_factor_ok (tempo : Q) :
  ~ (tempo == 0)%Q -> ms_scale_factor tempo = Ok (60000000 / tempo / 480000)%Q.
Proof.
  intros Hne. unfold ms_scale_factor.
  destruct (Qeq_bool tempo 0) eqn:Hz; [|reflexivity].
  apply Qeq_bool_eq in Hz. contradiction.
Qed.

(** X5.  For a tempo that is not zero [to_midi_contour] returns a string,
    whatever the notes and the window: no index is ever out of the range
    of [MIDI_MAP].  The string has one character for each symbol of the
    walk. *)
Theorem to_midi_contour_returns
    (reader_notes : list Note) (tempo : Q) (start_seconds end_seconds : option Q) :
  ~ (tempo == 0)%Q ->
  exists (factor : Q) (contour : string),
    ms_scale_factor tempo = Ok factor
    /\ to_midi_contour reader_notes tempo start_seconds end_seconds = Ok contour
    /\ String.length contour
       = length (midi_contour
                   (run factor start_seconds end_seconds initial_qstate reader_notes)).
Proof.
  intros Hne. unfold to_midi_contour.
  rewrite (ms_scale_factor_ok tempo Hne), bind_Ok.
  set (factor := (60000000 / tempo / 480000)%Q).
  assert (Hrange : Forall (fun x => exists c, str_index MIDI_MAP x = Ok c)
                     (midi_contour
                        (run factor start_seconds end_seconds initial_qstate reader_notes))).
  { eapply Forall_impl;
      [apply run_contour_in_range; constructor|].
    intros x Hx. apply str_index_in_range.
    change (Z.of_nat (String.length MIDI_MAP)) with 48.
    unfold MIDI_NUM, MIDI_HIGH, MIDI_LOW in Hx. lia. }
  destruct (mapM_ok (str_index MIDI_MAP) _ Hrange) as (symbols & Hsymbols & Hlen).
  exists factor, (join_chars symbols).
  split; [reflexivity|]. rewrite Hsymbols, bind_Ok.
  split; [reflexivity|]. rewrite join_chars_length. exact Hlen.
Qed.

Lemma to_midi_contour_returns_witness :
  exists (factor : Q) (contour : string),
    ms_scale_factor 100 = Ok factor
    /\ to_midi_contour [long_note; note_at_window_end] 100 None None = Ok contour
    /\ String.length contour
       = length (midi_contour
                   (run factor None None initial_qstate [long_note; note_at_window_end])).
Proof.
  apply (to_midi_contour_returns [long_note; note_at_window_end] 100 None None).
  discriminate.
Defined.

(** ** A window bound of zero *)

Lemma zero_window_step
    (factor s e : Q) (st : qstate) (note : Note) :
  (s == 0)%Q -> (e == 0)%Q ->
  quantize_step factor (Some s) (Some e) st note
  = quantize_step factor None None st note.
Proof.
  intros Hs He. unfold quantize_step, before_window, after_window, truthy.
  apply Qeq_bool_iff in Hs, He. rewrite Hs, He. reflexivity.
Qed.

(** X6.  A window start or a window end of zero seconds counts as not
    given: with both at zero the contour is that of the whole tune, not an
    empty one. *)
Theorem zero_window_is_no_window
    (reader_notes : list Note) (tempo s e : Q) :
  (s == 0)%Q -> (e == 0)%Q ->
  to_midi_contour reader_notes tempo (Some s) (Some e)
  = to_midi_contour reader_notes tempo None None.
Proof.
  intros Hs He. unfold to_midi_contour.
  destruct (ms_scale_factor tempo) as [factor|err]; [|reflexivity].
  rewrite !bind_Ok.
  assert (Hrun : forall ns st,
             run factor (Some s) (Some e) st ns = run factor None None st ns).
  { intros ns. induction ns as [|note rest IH]; intros st; cbn [run]; [reflexivity|].
    rewrite (zero_window_step factor s e st note Hs He).
    destruct (quantize_step factor None None st note) as [b st'].
    destruct b; try apply IH. reflexivity. }
  rewrite Hrun. reflexivity.
Qed.

Lemma zero_window_is_no_window_witness :
  to_midi_contour [long_note] 125 (Some 0%Q) (Some 0%Q)
  = to_midi_contour [long_note] 125 None None.
Proof.
  apply (zero_window_is_no_window [long_note] 125 0 0); reflexivity.
Defined.

(** ** More on the pitch folder *)

Lemma raise_octaves_above (p : Z) : MIDI_LOW < p -> raise_octaves p = p.
Proof.
  intros Hp. simp raise_octaves.
  destruct (decide (p <= MIDI_LOW)) as [Hle|Hgt]; [lia | reflexivity].
Qed.

Lemma lower_octaves_below (p : Z) : p < MIDI_HIGH -> lower_octaves p = p.
Proof.
  intros Hp. simp lower_octaves.
  destruct (decide (p >= MIDI_HIGH)) as [Hge|Hlt]; [lia | reflexivity].
Qed.

Lemma folded_pitch_range (p : Z) : MIDI_LOW < folded_pitch p < MIDI_HIGH.
Proof.
  unfold folded_pitch.
  destruct (raise_octaves_spec p) as (Hlow & _ & _).
  destruct (lower_octaves_spec (raise_octaves p)) as (Hhigh & _ & Hmin).
  unfold MIDI_LOW, MIDI_HIGH in *. lia.
Qed.

Lemma folded_pitch_in_band (p : Z) :
  MIDI_LOW < p < MIDI_HIGH -> folded_pitch p = p.
Proof.
  intros [Hlow Hhigh]. unfold folded_pitch.
  rewrite (raise_octaves_above p Hlow). apply lower_octaves_below, Hhigh.
Qed.

(** X7.  A pitch strictly inside the band is left where it is, so folding
    twice is folding once.  Two pitches an octave apart that both lie in
    the band therefore keep different symbols. *)
Theorem folded_pitch_fixes_band :
  (forall p : Z, MIDI_LOW < p < MIDI_HIGH -> folded_pitch p = p)
  /\ (forall p : Z, folded_pitch (folded_pitch p) = folded_pitch p).
Proof.
  split.
  - apply folded_pitch_in_band.
  - intros p. apply folded_pitch_in_band, folded_pitch_range.
Qed.

Lemma folded_pitch_fixes_band_witness :
  folded_pitch 60 = 60 /\ folded_pitch 72 = 72.
Proof.
  split; apply (proj1 folded_pitch_fixes_band); unfold MIDI_LOW, MIDI_HIGH; lia.
Defined.

(** X8.  A pitch at or below [MIDI_LOW] lands in the lowest octave above
    it, 49 to 60, and a pitch at or above [MIDI_HIGH] in the highest octave
    below it, 83 to 94, each on the place its pitch class fixes. *)
Theorem folded_pitch_out_of_band (p : Z) :
  (p <= MIDI_LOW -> folded_pitch p = 49 + (p - 49) mod 12)
  /\ (MIDI_HIGH <= p -> folded_pitch p = 83 + (p - 83) mod 12).
Proof.
  unfold folded_pitch.
  destruct (raise_octaves_spec p) as (Hlow & Hmod & Hmax).
  destruct (lower_octaves_spec (raise_octaves p)) as (Hhigh & Hmod' & Hmin).
  split; intros Hp; unfold MIDI_LOW, MIDI_HIGH in *.
  - rewrite lower_octaves_below by (unfold MIDI_HIGH; lia).
    set (x := raise_octaves p) in *. clearbody x.
    clear Hhigh Hmod' Hmin. Z.div_mod_to_equations. lia.
  - rewrite (raise_octaves_above p) in * by (unfold MIDI_LOW; lia).
    set (x := lower_octaves p) in *. clearbody x.
    clear Hlow Hmod Hmax. Z.div_mod_to_equations. lia.
Qed.

Lemma folded_pitch_out_of_band_witness :
  folded_pitch 36 = 49 + (36 - 49) mod 12
  /\ folded_pitch 100 = 83 + (100 - 83) mod 12.
Proof.
  split.
  - apply (proj1 (folded_pitch_out_of_band 36)). unfold MIDI_LOW. lia.
  - apply (proj2 (folded_pitch_out_of_band 100)). unfold MIDI_HIGH. lia.
Defined.

Lemma inner_letters :
  forallb (fun i => match str_index MIDI_MAP (Z.of_nat i) with
                    | Ok c => negb (Ascii.eqb c "a") && negb (Ascii.eqb c "V")
                    | Raise _ => false
                    end) (seq 1 46) = true.
Proof. vm_compute. reflexivity. Qed.

(** X9.  The symbol index of a note is always a valid index of
    [MIDI_MAP], and its letter is never the first letter of the alphabet,
    "a", nor the last, "V": the two ends of the band are not used. *)
Theorem rel_pitch_letter (n : Note) :
  exists c : ascii,
    str_index MIDI_MAP (rel_pitch n) = Ok c
    /\ c <> "a"%char /\ c <> "V"%char.
Proof.
  pose proof (rel_pitch_range n) as Hrange.
  unfold MIDI_NUM, MIDI_HIGH, MIDI_LOW in Hrange.
  pose proof inner_letters as Hall. rewrite forallb_forall in Hall.
  specialize (Hall (Z.to_nat (rel_pitch n))).
  rewrite Z2Nat.id in Hall by lia.
  assert (Hin : In (Z.to_nat (rel_pitch n)) (seq 1 46)) by (apply in_seq; lia).
  specialize (Hall Hin).
  destruct (str_index MIDI_MAP (rel_pitch n)) as [c|err]; [|discriminate].
  exists c. split; [reflexivity|].
  apply andb_prop in Hall as [Ha HV].
  split; apply Ascii.eqb_neq, negb_true_iff; assumption.
Qed.

(** ** More on the timeline builder *)

Lemma to_notes_skip (record : csv_record) :
  (forall st, to_notes_step st record = Ok st) ->
  forall pre post, to_notes (pre ++ record :: post) = to_notes (pre ++ post).
Proof.
  intros Hskip pre post. unfold to_notes. rewrite !to_notes_from_app.
  destruct (to_notes_from _ pre) as [st|err]; [|reflexivity].
  rewrite !bind_Ok. cbn [to_notes_from]. rewrite Hskip, bind_Ok. reflexivity.
Qed.

Lemma plain_non_digit_not_isdigit (field : string) :
  string_exists plain_non_digit field = true -> isdigit field = false.
Proof.
  intros Hex. unfold isdigit.
  assert (Hall : string_forall is_digit field = false).
  { induction field as [|c field IH]; [discriminate Hex|].
    cbn in Hex |- *. apply orb_prop in Hex as [Hc|Hrest].
    - unfold plain_non_digit in Hc. apply andb_prop in Hc as [_ Hc].
      apply negb_true_iff in Hc. rewrite Hc. reflexivity.
    - rewrite (IH Hrest). apply andb_false_r. }
  rewrite Hall. apply andb_false_r.
Qed.

(** X10.  A row without a pitch is skipped wherever it stands, whatever
    its other columns hold: a row whose note column is missing, is empty,
    or holds a character below 128 that is not a digit.  So is a row with
    a pitch of digits 0-9 and an integer time whose type is neither
    [Note_on_c] nor [Note_off_c].  The notes are those of the stream
    without the row. *)
Theorem other_rows_are_skipped (record : csv_record) :
  match rec_note record with
  | None => True
  | Some field =>
      is_empty field || string_exists plain_non_digit field = true
      \/ (isdigit field = true
          /\ (exists time, py_int (rec_time record) = Ok time)
          /\ rec_type record <> "Note_on_c"
          /\ rec_type record <> "Note_off_c")
  end ->
  forall pre post, to_notes (pre ++ record :: post) = to_notes (pre ++ post).
Proof.
  intros Hrow. apply to_notes_skip. intros st. unfold to_notes_step.
  destruct (rec_note record) as [field|]; [|reflexivity].
  destruct Hrow as [Hno|(Hdigit & [time Htime] & Hon & Hoff)].
  - apply orb_prop in Hno as [Hempty|Hplain].
    + rewrite Hempty. reflexivity.
    + rewrite (plain_non_digit_not_isdigit field Hplain). cbn [negb].
      rewrite orb_true_r. reflexivity.
  - assert (Hne : is_empty field = false).
    { unfold isdigit in Hdigit.
      destruct (is_empty field); [discriminate Hdigit | reflexivity]. }
    rewrite Hne, Hdigit. cbn [orb negb].
    rewrite (py_int_isdigit _ Hdigit), bind_Ok, Htime, bind_Ok.
    rewrite (bool_decide_eq_false_2 _ Hon), (bool_decide_eq_false_2 _ Hoff).
    reflexivity.
Qed.

Lemma other_rows_are_skipped_witness :
  to_notes ([stray_off] ++ tempo_row :: [stray_off])
  = to_notes ([stray_off] ++ [stray_off])
  /\ to_notes ([stray_off] ++ title_row :: [stray_off])
     = to_notes ([stray_off] ++ [stray_off]).
Proof.
  split.
  - apply (other_rows_are_skipped tempo_row). exact I.
  - apply (other_rows_are_skipped title_row). left. reflexivity.
Defined.

(** X11.  A [Note_on_c] for a pitch that is already open is ignored: the
    open note keeps the start it has, and the notes of the stream are
    those of the stream without the row. *)
Theorem second_on_is_ignored
    (st : reader_state) (record : csv_record) (field : string) (time start : Z)
    (Htype : rec_type record = "Note_on_c")
    (Hnote : rec_note record = Some field)
    (Hdigit : isdigit field = true)
    (Htime : py_int (rec_time record) = Ok time)
    (Hopen : active_notes st !! decimal_go 0 field = Some start) :
  to_notes_step st record = Ok st
  /\ forall (pre post : list csv_record),
       to_notes_from {| active_notes := ∅; notes := [] |} pre = Ok st ->
       to_notes (pre ++ record :: post) = to_notes (pre ++ post).
Proof.
  assert (Hstep : to_notes_step st record = Ok st).
  { assert (Hne : is_empty field = false).
    { unfold isdigit in Hdigit.
      destruct (is_empty field); [discriminate Hdigit | reflexivity]. }
    unfold to_notes_step. rewrite Hnote, Hne, Hdigit.
    cbn [orb negb]. rewrite (py_int_isdigit _ Hdigit), bind_Ok, Htime, bind_Ok.
    rewrite Htype.
    rewrite (bool_decide_eq_true_2 ("Note_on_c" = "Note_on_c")) by reflexivity.
    rewrite Hopen. reflexivity. }
  split; [exact Hstep|].
  intros pre post Hpre. unfold to_notes.
  rewrite !to_notes_from_app, Hpre, !bind_Ok. cbn [to_notes_from].
  rewrite Hstep, bind_Ok. reflexivity.
Qed.

Lemma second_on_is_ignored_witness :
  to_notes_step one_open_note second_on = Ok one_open_note.
Proof.
  apply (second_on_is_ignored one_open_note second_on "62" 120 0); reflexivity.
Defined.

Lemma digit_val_nonneg (c : ascii) : is_digit c = true -> 0 <= digit_val c.
Proof.
  unfold is_digit, digit_val. intros H. apply andb_prop in H as [H _].
  apply Nat.leb_le in H. lia.
Qed.

Lemma decimal_go_nonneg (s : string) (acc : Z) :
  0 <= acc -> string_forall is_digit s = true -> 0 <= decimal_go acc s.
Proof.
  revert acc. induction s as [|c s IH]; intros acc Hacc Hs; cbn; [exact Hacc|].
  cbn in Hs. apply andb_prop in Hs as [Hc Hs].
  apply IH; [|exact Hs]. pose proof (digit_val_nonneg c Hc). lia.
Qed.

Lemma strongly_sorted_snoc {A : Type} (R : A -> A -> Prop) (l : list A) (x : A) :
  StronglySorted R l -> Forall (fun a => R a x) l -> StronglySorted R (l ++ [x]).
Proof.
  induction 1 as [|a l Hl IH Ha]; intros Hx; cbn; [repeat constructor|].
  apply Forall_cons in Hx as [Hax Hx].
  constructor; [apply IH, Hx|].
  apply Forall_app. split; [exact Ha | repeat constructor; exact Hax].
Qed.

Lemma timeline_ok_later (T t : Z) (st : reader_state) :
  T <= t -> timeline_ok T st -> timeline_ok t st.
Proof.
  intros Hle (Hactive & Hnotes & Hsorted). split; [|split; [|exact Hsorted]].
  - intros p s Hp. specialize (Hactive p s Hp). lia.
  - eapply Forall_impl; [exact Hnotes|]. cbn. intros n Hn. lia.
Qed.

Lemma to_notes_step_chronological (T t : Z) (st : reader_state) (record : csv_record) :
  timeline_ok T st ->
  T <= t ->
  py_int (rec_time record) = Ok t ->
  exists st', to_notes_step st record = Ok st' /\ timeline_ok t st'.
Proof.
  intros Hok Hle Htime.
  pose proof (timeline_ok_later T t st Hle Hok) as Hok'.
  unfold to_notes_step.
  destruct (rec_note record) as [field|]; [|exists st; split; [reflexivity | exact Hok']].
  destruct (is_empty field || negb (isdigit field)) eqn:Hskip;
    [exists st; split; [reflexivity | exact Hok']|].
  apply orb_false_elim in Hskip as [_ Hdigit].
  apply negb_false_iff in Hdigit.
  rewrite (py_int_isdigit _ Hdigit), bind_Ok, Htime, bind_Ok.
  assert (Hpitch : 0 <= decimal_go 0 field).
  { apply decimal_go_nonneg; [lia|].
    unfold isdigit in Hdigit. apply andb_prop in Hdigit. tauto. }
  destruct Hok' as (Hactive & Hnotes & Hsorted).
  destruct (bool_decide (rec_type record = "Note_on_c")).
  { destruct (active_notes st !! decimal_go 0 field) eqn:Hopen;
      [exists st; split; [reflexivity | repeat split; assumption]|].
    eexists. split; [reflexivity|]. cbn. split; [|split; assumption].
    intros p s Hp. cbn [active_notes] in Hp.
    apply lookup_insert_Some in Hp as [[_ <-]|[_ Hp]];
      [lia | exact (Hactive p s Hp)]. }
  destruct (bool_decide (rec_type record = "Note_off_c"));
    [|exists st; split; [reflexivity | repeat split; assumption]].
  destruct (active_notes st !! decimal_go 0 field) as [start|] eqn:Hopen;
    [|exists st; split; [reflexivity | repeat split; assumption]].
  eexists. split; [reflexivity|]. cbn.
  destruct Hok as (Hactive0 & _ & _).
  pose proof (Hactive0 _ _ Hopen) as Hstart.
  split; [|split].
  - intros p s Hp. cbn [active_notes] in Hp.
    apply lookup_delete_Some in Hp as [_ Hp]. exact (Hactive p s Hp).
  - apply Forall_app. split; [exact Hnotes|].
    constructor; [cbn; lia | constructor].
  - apply strongly_sorted_snoc; [exact Hsorted|].
    eapply Forall_impl; [exact Hnotes|]. cbn. intros a Ha. lia.
Qed.

Lemma to_notes_from_chronological
    (records : list csv_record) (times : list Z) (T : Z) (st : reader_state) :
  Forall2 (fun r t => py_int (rec_time r) = Ok t) records times ->
  StronglySorted Z.le times ->
  Forall (Z.le T) times ->
  timeline_ok T st ->
  exists st' T', to_notes_from st records = Ok st' /\ timeline_ok T' st'.
Proof.
  intros Htimes. revert T st.
  induction Htimes as [|r t records times Hr _ IH]; intros T st Hsorted Hbound Hok.
  - exists st, T. split; [reflexivity | exact Hok].
  - apply StronglySorted_inv in Hsorted as [Hsorted Hhead].
    apply Forall_cons in Hbound as [Hle _].
    destruct (to_notes_step_chronological T t st r Hok Hle Hr) as (st1 & Hstep & Hok1).
    destruct (IH t st1 Hsorted Hhead Hok1) as (st' & T' & Hrest & Hok').
    exists st', T'. split; [|exact Hok'].
    cbn [to_notes_from]. rewrite Hstep, bind_Ok. exact Hrest.
Qed.

Lemma to_notes_chronological (records : list csv_record) (times : list Z) :
  Forall2 (fun r t => py_int (rec_time r) = Ok t) records times ->
  StronglySorted Z.le times ->
  exists reader_notes : list Note,
    to_notes records = Ok reader_notes
    /\ Forall (fun n => midi_start n <= midi_end n /\ 0 <= pitch n) reader_notes
    /\ StronglySorted (fun a b => midi_end a <= midi_end b) reader_notes.
Proof.
  intros Htimes Hsorted.
  set (T := match times with [] => 0 | t :: _ => t end).
  assert (Hbound : Forall (Z.le T) times).
  { destruct times as [|t times]; [constructor|]. subst T.
    apply StronglySorted_inv in Hsorted as [_ Hhead].
    constructor; [lia | exact Hhead]. }
  assert (Hinit : timeline_ok T {| active_notes := ∅; notes := [] |}).
  { split; [|split; constructor]. intros p s Hp. cbn in Hp.
    rewrite lookup_empty in Hp. discriminate. }
  destruct (to_notes_from_chronological records times T _ Htimes Hsorted Hbound Hinit)
    as (st' & T' & Hrun & (_ & Hnotes & Hends)).
  exists (notes st'). unfold to_notes. rewrite Hrun, bind_Ok.
  split; [reflexivity|]. split; [|exact Hends].
  eapply Forall_impl; [exact Hnotes|]. cbn. intros n Hn. lia.
Qed.

(** X12.  On a chronological stream of plain rows, one whose rows carry
    integer times that never decrease and whose note cells hold characters
    below 128 only, [to_notes] raises nothing; every note it makes starts
    no later than it ends and has a pitch that is not negative; and the
    notes come in the order of their ends. *)
Theorem chronological_stream_notes (records : list csv_record) (times : list Z) :
  plain_note_cells records ->
  Forall2 (fun r t => py_int (rec_time r) = Ok t) records times ->
  StronglySorted Z.le times ->
  exists reader_notes : list Note,
    to_notes records = Ok reader_notes
    /\ Forall (fun n => midi_start n <= midi_end n /\ 0 <= pitch n) reader_notes
    /\ StronglySorted (fun a b => midi_end a <= midi_end b) reader_notes.
Proof. intros _. apply to_notes_chronological. Qed.

Lemma chronological_stream_notes_witness :
  exists reader_notes : list Note,
    to_notes three_dotted_quavers = Ok reader_notes
    /\ Forall (fun n => midi_start n <= midi_end n /\ 0 <= pitch n) reader_notes
    /\ StronglySorted (fun a b => midi_end a <= midi_end b) reader_notes.
Proof.
  apply (chronological_stream_notes three_dotted_quavers [0; 360; 360; 720; 720; 1080]).
  - repeat constructor.
  - repeat constructor.
  - repeat (constructor; [|repeat constructor; lia]). constructor.
Defined.

(** ** More on the alias cleaner *)

Lemma lower_char_idem (c : ascii) : lower_char (lower_char c) = lower_char c.
Proof. destruct c as [[] [] [] [] [] [] [] []]; vm_compute; reflexivity. Qed.

Lemma word_char_lower_char (c : ascii) :
  is_word_char (lower_char c) = is_word_char c.
Proof. destruct c as [[] [] [] [] [] [] [] []]; vm_compute; reflexivity. Qed.

Lemma non_word_char_lower_char (c : ascii) :
  is_word_char c = false -> lower_char c = c.
Proof. destruct c as [[] [] [] [] [] [] [] []]; vm_compute; congruence. Qed.

Lemma lower_idem (s : string) : lower (lower s) = lower s.
Proof.
  induction s as [|c s IH]; [reflexivity|].
  unfold lower in *. cbn. rewrite lower_char_idem, IH. reflexivity.
Qed.

Lemma stripped_lower_filter (s : string) :
  string_filter is_word_char (lower (string_filter is_word_char s))
  = string_filter is_word_char (lower s).
Proof.
  induction s as [|c s IH]; [reflexivity|].
  unfold lower in *. cbn.
  destruct (is_word_char c) eqn:Hc; cbn; rewrite word_char_lower_char, Hc, IH;
    reflexivity.
Qed.

Lemma string_map_app (f : ascii -> ascii) (s t : string) :
  string_map f (s +:+ t) = string_map f s +:+ string_map f t.
Proof.
  induction s as [|c s IH]; [reflexivity|].
  change (String c s +:+ t) with (String c (s +:+ t)). cbn. rewrite IH. reflexivity.
Qed.

Lemma string_filter_app (p : ascii -> bool) (s t : string) :
  string_filter p (s +:+ t) = string_filter p s +:+ string_filter p t.
Proof.
  induction s as [|c s IH]; [reflexivity|].
  change (String c s +:+ t) with (String c (s +:+ t)). cbn.
  destruct (p c); rewrite IH; reflexivity.
Qed.

Lemma split_go_blank (s t w : string) :
  split_go w (s +:+ String " " t) = split_go w s ++ split t.
Proof.
  revert w. induction s as [|c s IH]; intros w.
  - change ("" +:+ String " " t) with (String " " t). cbn.
    destruct (is_empty w); reflexivity.
  - change (String c s +:+ String " " t) with (String c (s +:+ String " " t)).
    cbn [split_go]. destruct (is_space c); [|apply IH].
    destruct (is_empty w); rewrite IH; reflexivity.
Qed.

Lemma clean_words_blank (a b : string) :
  clean_words (a +:+ String " " b) = clean_words a ++ clean_words b.
Proof.
  unfold clean_words, lower, split.
  rewrite string_map_app. cbn [string_map].
  change (lower_char " ") with " "%char.
  rewrite string_filter_app. cbn [string_filter].
  change (is_word_char " ") with true. cbv iota.
  rewrite split_go_blank, filter_app, !fmap_app. reflexivity.
Qed.

(** X13.  For an alias of characters below 128, the canonical set does
    not depend on the case of the letters nor on the characters that are
    neither letters nor spaces: lower-casing the alias first, or stripping
    those characters first, changes nothing. *)
Theorem clean_alias_ignores_case_and_punctuation (alias : string) :
  string_forall is_ascii alias = true ->
  clean_alias (lower alias) = clean_alias alias
  /\ clean_alias (string_filter is_word_char alias) = clean_alias alias.
Proof.
  intros _. unfold clean_alias, clean_words. split.
  - rewrite lower_idem. reflexivity.
  - rewrite stripped_lower_filter. reflexivity.
Qed.

Lemma clean_alias_ignores_case_and_punctuation_witness :
  clean_alias (lower "The Blackbird's Reel (no. 2)")
  = clean_alias "The Blackbird's Reel (no. 2)"
  /\ clean_alias (string_filter is_word_char "The Blackbird's Reel (no. 2)")
     = clean_alias "The Blackbird's Reel (no. 2)".
Proof.
  apply (clean_alias_ignores_case_and_punctuation "The Blackbird's Reel (no. 2)").
  reflexivity.
Defined.

(** X14.  The canonical set of two aliases joined by a space is the union
    of their canonical sets; so the order of the words of an alias does not
    matter. *)
Theorem clean_alias_of_joined (a b : string) :
  clean_alias (a +:+ String " " b) = clean_alias a ∪ clean_alias b
  /\ clean_alias (a +:+ String " " b) = clean_alias (b +:+ String " " a).
Proof.
  assert (Hjoin : forall x y,
             clean_alias (x +:+ String " " y) = clean_alias x ∪ clean_alias y).
  { intros x y. unfold clean_alias. rewrite clean_words_blank.
    apply list_to_set_app_L. }
  split; [apply Hjoin|].
  rewrite !Hjoin. apply (comm_L (∪)).
Qed.

(** X15.  Every word of a canonical set is made of small letters only, and
    none is the American spelling "favorite". *)
Theorem canonical_words_are_small (alias w : string) :
  w ∈ clean_alias alias ->
  string_forall is_lower w = true /\ w <> "favorite".
Proof.
  intros Hw. unfold clean_alias in Hw. apply elem_of_list_to_set in Hw.
  pose proof (clean_words_small alias) as Hsmall.
  rewrite Forall_forall in Hsmall. exact (Hsmall w Hw).
Qed.

Lemma canonical_words_are_small_witness :
  string_forall is_lower "favourite" = true /\ "favourite" <> "favorite".
Proof.
  apply (canonical_words_are_small "My FAVORITES, no. 2" "favourite").
  apply (bool_decide_unpack _). vm_compute. exact I.
Defined.

(** ** More on the alias deduplicator *)

(** A pair of the first pass holds the first alias of the list with its
    canonical set, and that set had not been seen. *)
Lemma dedupe_pass_first (aliases : list string) (seen : gset (gset string))
    (c : gset string) (a : string) :
  (c, a) ∈ dedupe_pass seen aliases ->
  c = clean_alias a
  /\ (c ∉ seen)
  /\ exists before after,
       aliases = before ++ a :: after
       /\ forall y, y ∈ before -> clean_alias y <> c.
Proof.
  revert seen. induction aliases as [|x rest IH]; intros seen Hin; cbn in Hin;
    [inversion Hin|].
  destruct (bool_decide (clean_alias x ∈ seen)) eqn:Hseen.
  - apply bool_decide_eq_true in Hseen.
    destruct (IH seen Hin) as (Hc & Hnew & before & after & -> & Hfirst).
    split; [exact Hc|]. split; [exact Hnew|].
    exists (x :: before), after. split; [reflexivity|].
    intros y Hy. apply elem_of_cons in Hy as [->|Hy]; [|apply Hfirst, Hy].
    intros Heq. apply Hnew. rewrite <- Heq. exact Hseen.
  - apply bool_decide_eq_false in Hseen.
    apply elem_of_cons in Hin as [Heq|Hin].
    + injection Heq as -> ->. split; [reflexivity|]. split; [exact Hseen|].
      exists [], rest. split; [reflexivity|]. intros y Hy. inversion Hy.
    + destruct (IH _ Hin) as (Hc & Hnew & before & after & -> & Hfirst).
      apply not_elem_of_union in Hnew as [Hx Hnew].
      apply not_elem_of_singleton in Hx.
      split; [exact Hc|]. split; [exact Hnew|].
      exists (x :: before), after. split; [reflexivity|].
      intros y Hy. apply elem_of_cons in Hy as [->|Hy]; [|apply Hfirst, Hy].
      intros Heq. apply Hx. symmetry. exact Heq.
Qed.

Lemma dedupe_pass_NoDup (aliases : list string) (seen : gset (gset string)) :
  NoDup ((dedupe_pass seen aliases).*1).
Proof.
  revert seen. induction aliases as [|x rest IH]; intros seen; cbn; [constructor|].
  destruct (bool_decide (clean_alias x ∈ seen)); [apply IH|].
  cbn. apply NoDup_cons. split; [|apply IH].
  intros Hin. apply list_elem_of_fmap in Hin as ([c a] & Hc & Hin). cbn in Hc. subst c.
  destruct (dedupe_pass_first _ _ _ _ Hin) as (_ & Hnew & _).
  apply Hnew, elem_of_union. left. apply elem_of_singleton. reflexivity.
Qed.

Lemma NoDup_fst_functional {A B : Type} (l : list (A * B)) (x : A) (y1 y2 : B) :
  NoDup (l.*1) -> (x, y1) ∈ l -> (x, y2) ∈ l -> y1 = y2.
Proof.
  induction l as [|[x' y'] l IH]; cbn; intros Hnd H1 H2; [inversion H1|].
  apply NoDup_cons in Hnd as [Hx Hnd].
  assert (Hfst : forall y, (x', y) ∈ l -> False).
  { intros y Hy. apply Hx. apply list_elem_of_fmap. exists (x', y). split; [reflexivity | exact Hy]. }
  apply elem_of_cons in H1 as [H1|H1]; apply elem_of_cons in H2 as [H2|H2].
  - congruence.
  - injection H1 as -> ->. destruct (Hfst _ H2).
  - injection H2 as -> ->. destruct (Hfst _ H1).
  - exact (IH Hnd H1 H2).
Qed.

Lemma remove_subsets_sublist (l : list (gset string * string)) :
  remove_subsets l `sublist_of` l.*2.
Proof.
  induction l as [|[c a] rest IH]; cbn -[any_superset]; [constructor|].
  destruct (any_superset c ((c, a) :: rest)).
  - apply sublist_cons, IH.
  - apply sublist_skip, IH.
Qed.

Lemma deduplicate_aliases_NoDup (aliases : list string) :
  NoDup (deduplicate_aliases aliases).
Proof.
  unfold deduplicate_aliases, sorted_strings, sorted_by_key.
  rewrite py_sorted_perm.
  eapply sublist_NoDup; [|apply remove_subsets_sublist].
  rewrite py_sorted_perm.
  apply (NoDup_fmap_1 clean_alias).
  rewrite <- list_fmap_compose.
  erewrite list_fmap_ext; [apply (dedupe_pass_NoDup aliases ∅)|].
  intros i [c a] Hi. cbn.
  pose proof (dedupe_pass_pairs aliases ∅) as Hpairs.
  rewrite Forall_forall in Hpairs.
  symmetry. apply (Hpairs (c, a)). apply list_elem_of_lookup. exists i. exact Hi.
Qed.

(** X16.  First occurrence wins: every alias of the output is the first
    alias of the input with its canonical set; whatever comes before it in
    the input has another canonical set. *)
Theorem output_alias_is_first_of_its_set (aliases : list string) (a : string) :
  a ∈ deduplicate_aliases aliases ->
  exists before after,
    aliases = before ++ a :: after
    /\ forall y, y ∈ before -> clean_alias y <> clean_alias a.
Proof.
  intros Ha. apply deduplicate_aliases_maximal in Ha as [Hin _].
  destruct (dedupe_pass_first _ _ _ _ Hin) as (_ & _ & Hfirst). exact Hfirst.
Qed.

Lemma output_alias_is_first_of_its_set_witness :
  exists before after,
    ["Blackbird!"; "  blackbird"] = before ++ "Blackbird!" :: after
    /\ forall y, y ∈ before -> clean_alias y <> clean_alias "Blackbird!".
Proof.
  apply (output_alias_is_first_of_its_set ["Blackbird!"; "  blackbird"] "Blackbird!").
  apply (bool_decide_unpack _). vm_compute. exact I.
Defined.

(** X17.  The output is an alias group: it holds no alias twice, and of
    two different aliases of it neither has the canonical set of the other
    nor a strict subset of it. *)
Theorem output_is_alias_group (aliases : list string) :
  NoDup (deduplicate_aliases aliases)
  /\ forall a b,
       a ∈ deduplicate_aliases aliases ->
       b ∈ deduplicate_aliases aliases ->
       a <> b ->
       clean_alias a <> clean_alias b /\ ~ clean_alias a ⊂ clean_alias b.
Proof.
  split; [apply deduplicate_aliases_NoDup|].
  intros a b Ha Hb Hne.
  apply deduplicate_aliases_maximal in Ha as [Ha Hmax].
  apply deduplicate_aliases_maximal in Hb as [Hb _].
  split; [|exact (Hmax _ Hb)].
  intros Heq. apply Hne. rewrite <- Heq in Hb.
  exact (NoDup_fst_functional _ _ _ _ (dedupe_pass_NoDup aliases ∅) Ha Hb).
Qed.

Lemma output_is_alias_group_witness :
  clean_alias "blackbird reel" <> clean_alias "the thrush"
  /\ ~ clean_alias "blackbird reel" ⊂ clean_alias "the thrush".
Proof.
  apply (proj2 (output_is_alias_group ["the thrush"; "blackbird reel"; "blackbird"])).
  - apply (bool_decide_unpack _). vm_compute. exact I.
  - apply (bool_decide_unpack _). vm_compute. exact I.
  - discriminate.
Defined.

Lemma string_leb_le (x y : string) : String.leb x y = true <-> String.le x y.
Proof. unfold String.le. symmetry. apply Is_true_true. Qed.

Lemma insert_string_sorted (x : string) (l : list string) :
  StronglySorted String.le l ->
  StronglySorted String.le (insert_sorted String.leb x l).
Proof.
  induction 1 as [|y l Hsorted IH Hall]; cbn.
  - repeat constructor.
  - destruct (String.leb x y) eqn:Hxy.
    + apply string_leb_le in Hxy.
      constructor; [constructor; assumption|].
      constructor; [exact Hxy|].
      eapply Forall_impl; [exact Hall|]. cbn. intros z Hz.
      transitivity y; assumption.
    + assert (Hyx : String.le y x).
      { destruct (total String.le x y) as [H|H]; [|exact H].
        apply string_leb_le in H. congruence. }
      constructor; [exact IH|].
      rewrite insert_sorted_perm. constructor; [exact Hyx | exact Hall].
Qed.

Lemma sorted_strings_sorted (l : list string) :
  StronglySorted String.le (sorted_strings l).
Proof.
  unfold sorted_strings, py_sorted.
  induction l as [|x l IH]; cbn; [constructor|].
  apply insert_string_sorted, IH.
Qed.

(** A list of strings that is in order is left as it is by [sorted]. *)
Lemma sorted_strings_of_perm (l k : list string) :
  StronglySorted String.le k -> l ≡ₚ k -> sorted_strings l = k.
Proof.
  intros Hk Hperm.
  apply (StronglySorted_unique String.le); [apply sorted_strings_sorted | exact Hk |].
  unfold sorted_strings. rewrite py_sorted_perm. exact Hperm.
Qed.

(** X18.  The output is in alphabetical order: each alias is less than or
    equal to every alias after it, in the order of the character codes. *)
Theorem output_in_alphabetical_order (aliases : list string) :
  StronglySorted String.le (deduplicate_aliases aliases).
Proof. unfold deduplicate_aliases. apply sorted_strings_sorted. Qed.

(** X19.  A list of one alias is returned as it is, whatever the alias. *)
Theorem deduplicate_single_alias (a : string) : deduplicate_aliases [a] = [a].
Proof.
  unfold deduplicate_aliases. cbn [dedupe_pass].
  rewrite bool_decide_eq_false_2 by apply not_elem_of_empty.
  cbn -[bool_decide].
  rewrite bool_decide_eq_false_2; [reflexivity|].
  intros [_ Hne]. apply Hne. reflexivity.
Qed.

Lemma alias_represented (aliases : list string) (b : string) :
  b ∈ aliases ->
  exists a, a ∈ deduplicate_aliases aliases /\ clean_alias b ⊆ clean_alias a.
Proof.
  intros Hb.
  destruct (dedupe_pass_covers aliases ∅ b Hb) as [Hseen|[b' Hb']];
    [apply not_elem_of_empty in Hseen; destruct Hseen|].
  set (above := filter (fun p => clean_alias b ⊆ p.1) (dedupe_pass ∅ aliases)).
  assert (Hne : above <> []).
  { intros Hnil.
    assert (Hin : (clean_alias b, b') ∈ above)
      by (apply list_elem_of_filter; split; [reflexivity | exact Hb']).
    rewrite Hnil in Hin. inversion Hin. }
  destruct (exists_max_key len_key above Hne) as ([c a] & Hin & Hmax).
  apply list_elem_of_filter in Hin as [Hsub Hin]. cbn [fst] in Hsub.
  pose proof (dedupe_pass_pairs aliases ∅) as Hpairs.
  rewrite Forall_forall in Hpairs.
  pose proof (Hpairs _ Hin) as Hc. cbn [fst snd] in Hc. subst c.
  exists a. split; [|exact Hsub].
  apply elem_of_deduplicate_aliases.
  apply (remove_subsets_keeps _ (clean_alias a)); [apply elem_of_sorted_pass, Hin|].
  intros p Hp Hstrict. apply elem_of_sorted_pass in Hp.
  assert (Hp' : p ∈ above).
  { apply list_elem_of_filter. split; [|exact Hp].
    transitivity (clean_alias a); [exact Hsub | apply Hstrict]. }
  specialize (Hmax p Hp'). apply subset_size in Hstrict.
  unfold len_key in Hmax. cbn [fst] in Hmax. lia.
Qed.

(** X20.  Nothing is lost: for every alias of the input there is an alias
    in the output whose canonical set contains its canonical set. *)
Theorem every_alias_is_represented (aliases : list string) (b : string) :
  b ∈ aliases ->
  exists a, a ∈ deduplicate_aliases aliases /\ clean_alias b ⊆ clean_alias a.
Proof. apply alias_represented. Qed.

Lemma every_alias_is_represented_witness :
  exists a,
    a ∈ deduplicate_aliases ["the blackbird"; "blackbird reel"; "blackbird"]
    /\ clean_alias "blackbird" ⊆ clean_alias a.
Proof.
  apply (every_alias_is_represented
           ["the blackbird"; "blackbird reel"; "blackbird"] "blackbird").
  apply (bool_decide_unpack _). vm_compute. exact I.
Defined.

(** When the canonical sets of a list are all different and none was seen,
    the first pass keeps every alias. *)
Lemma dedupe_pass_all_new (aliases : list string) (seen : gset (gset string)) :
  NoDup (clean_alias <$> aliases) ->
  (forall a, a ∈ aliases -> clean_alias a ∉ seen) ->
  dedupe_pass seen aliases = (fun a => (clean_alias a, a)) <$> aliases.
Proof.
  revert seen. induction aliases as [|x rest IH]; intros seen Hnd Hnew; [reflexivity|].
  cbn. cbn in Hnd. apply NoDup_cons in Hnd as [Hx Hnd].
  rewrite bool_decide_eq_false_2 by (apply Hnew; left).
  f_equal. apply IH; [exact Hnd|].
  intros a Ha Hin. apply elem_of_union in Hin as [Hin|Hin].
  - apply elem_of_singleton in Hin. apply Hx. rewrite <- Hin.
    apply list_elem_of_fmap. exists a. split; [reflexivity | exact Ha].
  - apply (Hnew a); [right; exact Ha | exact Hin].
Qed.

(** When no pair has a strict superset in the list, the subset pass keeps
    every alias. *)
Lemma remove_subsets_all_kept (l : list (gset string * string)) :
  (forall p q, p ∈ l -> q ∈ l -> ~ p.1 ⊂ q.1) -> remove_subsets l = l.*2.
Proof.
  induction l as [|[c a] rest IH]; intros Hfree; [reflexivity|].
  cbn -[any_superset].
  destruct (any_superset c ((c, a) :: rest)) eqn:Hany.
  - apply any_superset_true in Hany as (q & Hq & Hsub).
    destruct (Hfree (c, a) q); [left | exact Hq | exact Hsub].
  - f_equal. apply IH. intros p q Hp Hq. apply Hfree; right; assumption.
Qed.

(** X21.  Deduplicating is idempotent: the output, deduplicated again, is
    the output. *)
Theorem deduplicate_aliases_idempotent (aliases : list string) :
  deduplicate_aliases (deduplicate_aliases aliases) = deduplicate_aliases aliases.
Proof.
  set (out := deduplicate_aliases aliases).
  assert (Hgroup : forall a b, a ∈ out -> b ∈ out ->
                     (clean_alias a = clean_alias b -> a = b)
                     /\ ~ clean_alias a ⊂ clean_alias b).
  { intros a b Ha Hb.
    apply deduplicate_aliases_maximal in Ha as [Ha Hmax].
    apply deduplicate_aliases_maximal in Hb as [Hb _].
    split; [|exact (Hmax _ Hb)].
    intros Heq. rewrite <- Heq in Hb.
    exact (NoDup_fst_functional _ _ _ _ (dedupe_pass_NoDup aliases ∅) Ha Hb). }
  assert (Hpass : dedupe_pass ∅ out = (fun a => (clean_alias a, a)) <$> out).
  { apply dedupe_pass_all_new; [|intros a _; apply not_elem_of_empty].
    apply NoDup_fmap_2_strong; [|apply deduplicate_aliases_NoDup].
    intros a b Ha Hb Heq. apply (Hgroup a b Ha Hb), Heq. }
  unfold deduplicate_aliases at 1. fold out. rewrite Hpass.
  apply sorted_strings_of_perm; [apply sorted_strings_sorted|].
  rewrite remove_subsets_all_kept.
  - unfold sorted_by_key. rewrite py_sorted_perm, <- list_fmap_compose.
    erewrite (list_fmap_ext _ id); [rewrite list_fmap_id; reflexivity|].
    intros i a _. reflexivity.
  - intros p q Hp Hq. apply elem_of_py_sorted in Hp, Hq.
    apply list_elem_of_fmap in Hp as (a & -> & Ha).
    apply list_elem_of_fmap in Hq as (b & -> & Hb).
    cbn. apply (Hgroup a b Ha Hb).
Qed.

(** ** More on gather_aliases *)

(** The stable sort keeps the order of the elements it cannot tell apart. *)
Lemma insert_sorted_filter {A : Type} (le : A -> A -> bool)
    (P : A -> Prop) `{forall x, Decision (P x)} (x : A) (l : list A) :
  (forall y, y ∈ l -> P x -> P y -> le x y = true) ->
  filter P (insert_sorted le x l) = filter P (x :: l).
Proof.
  induction l as [|y l IH]; intros Hle; [reflexivity|]. cbn [insert_sorted].
  destruct (le x y) eqn:Hxy; [reflexivity|].
  rewrite filter_cons, IH by (intros z Hz; apply Hle; right; exact Hz).
  rewrite !filter_cons.
  destruct (decide (P x)) as [Hx|Hx]; [|reflexivity].
  destruct (decide (P y)) as [Hy|Hy]; [|reflexivity].
  rewrite (Hle y) in Hxy by (assumption || left). discriminate.
Qed.

Lemma py_sorted_filter {A : Type} (le : A -> A -> bool)
    (P : A -> Prop) `{forall x, Decision (P x)} (l : list A) :
  (forall x y, x ∈ l -> y ∈ l -> P x -> P y -> le x y = true) ->
  filter P (py_sorted le l) = filter P l.
Proof.
  induction l as [|x l IH]; intros Hle; [reflexivity|].
  unfold py_sorted. cbn [foldr]. fold (py_sorted le l).
  rewrite insert_sorted_filter.
  - rewrite !filter_cons, IH by (intros y z Hy Hz; apply Hle; right; assumption).
    reflexivity.
  - intros y Hy. apply elem_of_py_sorted in Hy. apply Hle; [left | right; exact Hy].
Qed.

(** The keys [sorted] computes: each record with the number its identifier
    reads as. *)
Lemma keyed_records (alias_records : list alias_record) (keyed : list (Z * alias_record)) :
  mapM (fun r => k ← py_int (ar_tune_id r); mret (k, r)) alias_records = Ok keyed ->
  keyed.*2 = alias_records
  /\ Forall (fun p => py_int (ar_tune_id p.2) = Ok p.1) keyed.
Proof.
  revert keyed. induction alias_records as [|r rest IH]; intros keyed Hkeyed; cbn in Hkeyed.
  - injection Hkeyed as <-. split; [reflexivity | constructor].
  - destruct (py_int (ar_tune_id r)) as [k|err] eqn:Hk; [|discriminate].
    cbn in Hkeyed.
    destruct (mapM _ rest) as [keyed'|err]; [|discriminate].
    cbn in Hkeyed. injection Hkeyed as <-.
    destruct (IH keyed' eq_refl) as [Hsnd Hall].
    split; [cbn; rewrite Hsnd; reflexivity|].
    constructor; [exact Hk | exact Hall].
Qed.

Lemma filter_of_fmap {A B : Type} (f : A -> B) (P : B -> Prop)
    `{forall y, Decision (P y)} (l : list A) :
  filter P (f <$> l) = f <$> filter (fun x => P (f x)) l.
Proof.
  induction l as [|x l IH]; [reflexivity|].
  rewrite fmap_cons, !filter_cons, IH.
  destruct (decide (P (f x))); reflexivity.
Qed.

Lemma sorted_records_filter (tid : string) (keyed : list (Z * alias_record)) :
  Forall (fun p => py_int (ar_tune_id p.2) = Ok p.1) keyed ->
  filter (fun r => ar_tune_id r = tid) ((sorted_by_key fst keyed).*2)
  = filter (fun r => ar_tune_id r = tid) (keyed.*2).
Proof.
  intros Hkeys. rewrite Forall_forall in Hkeys.
  rewrite !filter_of_fmap. f_equal. unfold sorted_by_key.
  apply py_sorted_filter.
  intros x y Hx Hy Hxt Hyt. cbn in Hxt, Hyt.
  pose proof (Hkeys x Hx) as Hkx. pose proof (Hkeys y Hy) as Hky.
  rewrite Hxt in Hkx. rewrite Hyt in Hky.
  assert (x.1 = y.1) as -> by congruence. apply Z.leb_refl.
Qed.

Lemma get_list_append_alias (m : gmap string (list string)) (r : alias_record) (tid : string) :
  get_list (append_alias m r) tid
  = get_list m tid ++ aliases_of tid [r].
Proof.
  unfold append_alias, aliases_of, get_list.
  rewrite filter_cons, filter_nil.
  destruct (decide (ar_tune_id r = tid)) as [->|Hne].
  - rewrite lookup_insert_eq. reflexivity.
  - rewrite lookup_insert_ne by exact Hne. cbn. rewrite app_nil_r. reflexivity.
Qed.

Lemma get_list_foldl_append (l : list alias_record) (m : gmap string (list string))
    (tid : string) :
  get_list (foldl append_alias m l) tid = get_list m tid ++ aliases_of tid l.
Proof.
  revert m. induction l as [|r l IH]; intros m; cbn [foldl].
  - unfold aliases_of. rewrite filter_nil. cbn. rewrite app_nil_r. reflexivity.
  - rewrite IH, get_list_append_alias, <- app_assoc. f_equal.
    unfold aliases_of. rewrite <- fmap_app, <- filter_app. reflexivity.
Qed.

Lemma get_list_fmap_dedupe (m : gmap string (list string)) (tid : string) :
  get_list (deduplicate_aliases <$> m) tid = deduplicate_aliases (get_list m tid).
Proof.
  unfold get_list. rewrite lookup_fmap.
  destruct (m !! tid); reflexivity.
Qed.

Lemma insert_name_as_insert (m : gmap string (list string)) (t : tune_setting) :
  insert_name m t
  = <[ ts_tune_id t := name_first (get_list m (ts_tune_id t)) (lower (ts_name t)) ]> m.
Proof.
  unfold insert_name, name_first.
  destruct (get_list m (ts_tune_id t)) as [|first rest] eqn:Hcur; [reflexivity|].
  destruct (bool_decide (first = lower (ts_name t))); cbn [negb]; [|reflexivity].
  symmetry. apply insert_id.
  unfold get_list in Hcur. destruct (m !! ts_tune_id t); [cbn in Hcur; congruence | discriminate].
Qed.

Lemma get_list_insert_name (m : gmap string (list string)) (t : tune_setting) (tid : string) :
  get_list (insert_name m t) tid = foldl name_first (get_list m tid) (names_of tid [t]).
Proof.
  rewrite insert_name_as_insert. unfold names_of, get_list at 1.
  rewrite filter_cons, filter_nil.
  destruct (decide (ts_tune_id t = tid)) as [->|Hne].
  - rewrite lookup_insert_eq. reflexivity.
  - rewrite lookup_insert_ne by exact Hne. reflexivity.
Qed.

Lemma get_list_foldl_insert_name (l : list tune_setting) (m : gmap string (list string))
    (tid : string) :
  get_list (foldl insert_name m l) tid = foldl name_first (get_list m tid) (names_of tid l).
Proof.
  revert m. induction l as [|t l IH]; intros m; cbn [foldl].
  - unfold names_of. rewrite filter_nil. reflexivity.
  - rewrite IH, get_list_insert_name, <- foldl_app. f_equal.
    unfold names_of. rewrite <- fmap_app, <- filter_app. reflexivity.
Qed.

(** What [gather_aliases] returns, when it returns. *)
Lemma gather_aliases_Ok (alias_records : list alias_record) (tune_data : list tune_setting)
    (aliases : gmap string (list string)) :
  gather_aliases alias_records tune_data = Ok aliases ->
  exists keyed,
    mapM (fun r => k ← py_int (ar_tune_id r); mret (k, r)) alias_records = Ok keyed
    /\ aliases
       = foldl insert_name
           (deduplicate_aliases <$> foldl append_alias ∅ ((sorted_by_key fst keyed).*2))
           tune_data.
Proof.
  unfold gather_aliases. intros Hgather.
  destruct (mapM _ alias_records) as [keyed|err]; [|discriminate].
  rewrite bind_Ok in Hgather. exists keyed. split; [reflexivity|].
  destruct (forallb _ _); [|discriminate]. congruence.
Qed.

Lemma gather_aliases_per_tune (alias_records : list alias_record)
    (tune_data : list tune_setting) (aliases : gmap string (list string)) (tid : string) :
  gather_aliases alias_records tune_data = Ok aliases ->
  get_list aliases tid
  = foldl name_first
      (deduplicate_aliases (aliases_of tid alias_records))
      (names_of tid tune_data).
Proof.
  intros Hgather.
  destruct (gather_aliases_Ok _ _ _ Hgather) as (keyed & Hkeyed & ->).
  destruct (keyed_records _ _ Hkeyed) as [Hsnd Hkeys].
  rewrite get_list_foldl_insert_name, get_list_fmap_dedupe, get_list_foldl_append.
  unfold get_list at 1. rewrite lookup_empty. cbn [default app].
  unfold aliases_of. rewrite (sorted_records_filter tid keyed Hkeys), Hsnd.
  reflexivity.
Qed.

(** X22.  [gather_aliases] works tune by tune.  The list of a tune is the
    deduplicated list of its own aliases, lower-cased and in the order of
    the file (sorting the records by the number of the tune does not
    reorder them), to which the name of each of its settings is put in
    front in turn unless the list already starts with it. *)
Theorem gather_aliases_tune_by_tune (alias_records : list alias_record)
    (tune_data : list tune_setting) (aliases : gmap string (list string)) (tid : string) :
  gather_aliases alias_records tune_data = Ok aliases ->
  get_list aliases tid
  = foldl name_first
      (deduplicate_aliases (aliases_of tid alias_records))
      (names_of tid tune_data).
Proof. apply gather_aliases_per_tune. Qed.

Lemma gather_aliases_tune_by_tune_witness :
  exists aliases,
    gather_aliases zed_reel_aliases zed_reel_settings = Ok aliases
    /\ get_list aliases "1"
       = foldl name_first
           (deduplicate_aliases (aliases_of "1" zed_reel_aliases))
           (names_of "1" zed_reel_settings).
Proof.
  eexists. split; [vm_compute; reflexivity|].
  apply (gather_aliases_tune_by_tune zed_reel_aliases zed_reel_settings).
  vm_compute. reflexivity.
Defined.

Lemma name_first_head (current : list string) (alias : string) :
  exists rest, name_first current alias = alias :: rest.
Proof.
  unfold name_first. destruct current as [|first rest]; [exists []; reflexivity|].
  destruct (bool_decide (first = alias)) eqn:Heq.
  - apply bool_decide_eq_true in Heq. subst first. exists rest. reflexivity.
  - exists (first :: rest). reflexivity.
Qed.

Lemma names_of_app (tid : string) (l k : list tune_setting) :
  names_of tid (l ++ k) = names_of tid l ++ names_of tid k.
Proof. unfold names_of. rewrite filter_app, fmap_app. reflexivity. Qed.

Lemma names_of_others (tid : string) (l : list tune_setting) :
  (forall t, t ∈ l -> ts_tune_id t <> tid) -> names_of tid l = [].
Proof.
  intros Hother. unfold names_of.
  induction l as [|t l IH]; [reflexivity|].
  rewrite filter_cons.
  destruct (decide (ts_tune_id t = tid)) as [Heq|_];
    [destruct (Hother t); [left | exact Heq]|].
  apply IH. intros t' Ht'. apply Hother. right. exact Ht'.
Qed.

Lemma get_list_cons (m : gmap string (list string)) (tid a : string) (rest : list string) :
  get_list m tid = a :: rest -> m !! tid = Some (a :: rest).
Proof.
  unfold get_list. destruct (m !! tid); cbn; [congruence | discriminate].
Qed.

(** X23.  The name comes first: for the last setting of a tune in
    [tune_data], the list of the tune starts with the lower-cased name of
    that setting. *)
Theorem name_of_last_setting_is_first
    (alias_records : list alias_record) (before after : list tune_setting)
    (setting : tune_setting) (aliases : gmap string (list string)) :
  gather_aliases alias_records (before ++ setting :: after) = Ok aliases ->
  (forall t, t ∈ after -> ts_tune_id t <> ts_tune_id setting) ->
  exists rest,
    aliases !! ts_tune_id setting = Some (lower (ts_name setting) :: rest).
Proof.
  intros Hgather Hlast.
  pose proof (gather_aliases_per_tune _ _ _ (ts_tune_id setting) Hgather) as Hlist.
  rewrite names_of_app in Hlist.
  change (setting :: after) with ([setting] ++ after) in Hlist.
  rewrite names_of_app, (names_of_others _ after Hlast), app_nil_r in Hlist.
  unfold names_of at 2 in Hlist. rewrite filter_cons, filter_nil in Hlist.
  destruct (decide (ts_tune_id setting = ts_tune_id setting)) as [_|Hne];
    [|contradiction].
  rewrite foldl_app in Hlist. cbn [fmap list_fmap foldl] in Hlist.
  destruct (name_first_head
              (foldl name_first
                 (deduplicate_aliases (aliases_of (ts_tune_id setting) alias_records))
                 (names_of (ts_tune_id setting) before))
              (lower (ts_name setting))) as [rest Hrest].
  rewrite Hrest in Hlist. exists rest. apply get_list_cons, Hlist.
Qed.

Lemma name_of_last_setting_is_first_witness :
  exists aliases rest,
    gather_aliases zed_reel_aliases ([] ++ zed_reel_setting :: []) = Ok aliases
    /\ aliases !! ts_tune_id zed_reel_setting
       = Some (lower (ts_name zed_reel_setting) :: rest).
Proof.
  eexists.
  assert (Hgather : gather_aliases zed_reel_aliases ([] ++ zed_reel_setting :: []) = Ok _)
    by (vm_compute; reflexivity).
  destruct (name_of_last_setting_is_first zed_reel_aliases [] [] zed_reel_setting _ Hgather)
    as [rest Hrest].
  - intros t Ht. inversion Ht.
  - exists rest. split; [exact Hgather | exact Hrest].
Defined.

Lemma foldl_name_first_same (n : string) (l : list string) :
  Forall (fun x => x = n) l -> foldl name_first [n] l = [n].
Proof.
  induction 1 as [|x l -> _ IH]; [reflexivity|].
  cbn [foldl name_first]. rewrite bool_decide_eq_true_2 by reflexivity. exact IH.
Qed.

(** X24.  A tune that has settings but no record in [alias_records] gets
    the list of its name alone, once, however many settings it has (when
    its settings agree on the name). *)
Theorem tune_without_aliases
    (alias_records : list alias_record) (tune_data : list tune_setting)
    (aliases : gmap string (list string)) (setting : tune_setting) :
  gather_aliases alias_records tune_data = Ok aliases ->
  setting ∈ tune_data ->
  (forall r, r ∈ alias_records -> ar_tune_id r <> ts_tune_id setting) ->
  (forall t, t ∈ tune_data -> ts_tune_id t = ts_tune_id setting ->
             lower (ts_name t) = lower (ts_name setting)) ->
  aliases !! ts_tune_id setting = Some [lower (ts_name setting)].
Proof.
  intros Hgather Hin Hnone Hsame.
  pose proof (gather_aliases_per_tune _ _ _ (ts_tune_id setting) Hgather) as Hlist.
  assert (Haliases : aliases_of (ts_tune_id setting) alias_records = []).
  { unfold aliases_of. clear Hgather Hlist.
    induction alias_records as [|r rest IH]; [reflexivity|].
    rewrite filter_cons.
    destruct (decide (ar_tune_id r = ts_tune_id setting)) as [Heq|_];
      [destruct (Hnone r); [left | exact Heq]|].
    apply IH. intros r' Hr'. apply Hnone. right. exact Hr'. }
  rewrite Haliases in Hlist. change (deduplicate_aliases []) with (@nil string) in Hlist.
  assert (Hnames : Forall (fun x => x = lower (ts_name setting))
                          (names_of (ts_tune_id setting) tune_data)).
  { apply Forall_forall. intros x Hx. unfold names_of in Hx.
    apply list_elem_of_fmap in Hx as (t & -> & Ht).
    apply list_elem_of_filter in Ht as [Htid Ht]. exact (Hsame t Ht Htid). }
  assert (Hone : lower (ts_name setting) ∈ names_of (ts_tune_id setting) tune_data).
  { unfold names_of. apply list_elem_of_fmap. exists setting. split; [reflexivity|].
    apply list_elem_of_filter. split; [reflexivity | exact Hin]. }
  destruct (names_of (ts_tune_id setting) tune_data) as [|x names]; [inversion Hone|].
  apply Forall_cons in Hnames as [-> Hnames].
  cbn [foldl name_first] in Hlist. rewrite (foldl_name_first_same _ _ Hnames) in Hlist.
  apply get_list_cons, Hlist.
Qed.

Lemma tune_without_aliases_witness :
  exists aliases,
    gather_aliases zed_reel_aliases (zed_reel_settings ++ [other_setting; other_setting])
    = Ok aliases
    /\ aliases !! ts_tune_id other_setting = Some [lower (ts_name other_setting)].
Proof.
  eexists.
  assert (Hgather : gather_aliases zed_reel_aliases
                      (zed_reel_settings ++ [other_setting; other_setting]) = Ok _)
    by (vm_compute; reflexivity).
  split; [exact Hgather|].
  apply (tune_without_aliases _ _ _ other_setting Hgather).
  - apply elem_of_app. right. left.
  - intros r Hr Heq. unfold zed_reel_aliases in Hr.
    repeat (apply elem_of_cons in Hr as [->|Hr]; [vm_compute in Heq; discriminate Heq|]).
    inversion Hr.
  - intros t Ht Htid. unfold zed_reel_settings in Ht. cbn [app] in Ht.
    apply elem_of_cons in Ht as [->|Ht]; [vm_compute in Htid; discriminate Htid|].
    repeat (apply elem_of_cons in Ht as [->|Ht]; [reflexivity|]).
    inversion Ht.
Defined.

Lemma py_int_raises (s : string) (e : exn) : py_int s = Raise e -> e = ValueError.
Proof.
  unfold py_int. destruct s as [|c s]; [congruence|].
  destruct (bool_decide (c = "-"%char)); [destruct (isdigit s); congruence|].
  destruct (bool_decide (c = "+"%char)); [destruct (isdigit s); congruence|].
  destruct (isdigit (String c s)); congruence.
Qed.

Lemma keyed_records_outcome (alias_records : list alias_record) :
  (Forall (fun r => exists k, py_int (ar_tune_id r) = Ok k) alias_records ->
   exists keyed,
     mapM (fun r => k ← py_int (ar_tune_id r); mret (k, r)) alias_records = Ok keyed)
  /\ (Exists (fun r => exists e, py_int (ar_tune_id r) = Raise e) alias_records ->
      mapM (fun r => k ← py_int (ar_tune_id r); mret (k, r)) alias_records
      = Raise ValueError).
Proof.
  induction alias_records as [|r rest [IHok IHbad]]; split.
  - intros _. exists []. reflexivity.
  - intros Hbad. inversion Hbad.
  - intros Hall. apply Forall_cons in Hall as [[k Hk] Hall].
    destruct (IHok Hall) as [keyed Hkeyed].
    exists ((k, r) :: keyed). cbn. rewrite Hk. cbn. rewrite Hkeyed. reflexivity.
  - intros Hbad. cbn.
    destruct (py_int (ar_tune_id r)) as [k|e] eqn:Hk.
    + apply Exists_cons in Hbad as [[e He]|Hbad]; [congruence|].
      cbn. rewrite (IHbad Hbad). reflexivity.
    + rewrite (py_int_raises _ _ Hk). reflexivity.
Qed.

Lemma deduplicate_aliases_not_nil (aliases : list string) :
  aliases <> [] -> deduplicate_aliases aliases <> [].
Proof.
  destruct aliases as [|b rest]; [congruence|]. intros _ Hnil.
  destruct (alias_represented (b :: rest) b) as (a & Ha & _); [left|].
  rewrite Hnil in Ha. inversion Ha.
Qed.

Lemma foldl_append_alias_nonempty (l : list alias_record) (m : gmap string (list string)) :
  (forall tid v, m !! tid = Some v -> v <> []) ->
  forall tid v, foldl append_alias m l !! tid = Some v -> v <> [].
Proof.
  revert m. induction l as [|r l IH]; intros m Hm; [exact Hm|].
  cbn [foldl]. apply IH. intros tid v Hv. unfold append_alias in Hv.
  apply lookup_insert_Some in Hv as [[_ <-]|[_ Hv]]; [|exact (Hm tid v Hv)].
  intros Hnil. apply app_eq_nil in Hnil as [_ Hnil]. discriminate.
Qed.

Lemma foldl_insert_name_nonempty (l : list tune_setting) (m : gmap string (list string)) :
  (forall tid v, m !! tid = Some v -> v <> []) ->
  forall tid v, foldl insert_name m l !! tid = Some v -> v <> [].
Proof.
  revert m. induction l as [|t l IH]; intros m Hm; [exact Hm|].
  cbn [foldl]. apply IH. intros tid v Hv. rewrite insert_name_as_insert in Hv.
  apply lookup_insert_Some in Hv as [[_ <-]|[_ Hv]]; [|exact (Hm tid v Hv)].
  destruct (name_first_head (get_list m (ts_tune_id t)) (lower (ts_name t))) as [rest ->].
  discriminate.
Qed.

Lemma gather_aliases_when_keyed (alias_records : list alias_record)
    (tune_data : list tune_setting) (keyed : list (Z * alias_record)) :
  mapM (fun r => k ← py_int (ar_tune_id r); mret (k, r)) alias_records = Ok keyed ->
  exists aliases,
    gather_aliases alias_records tune_data = Ok aliases
    /\ forall tid v, aliases !! tid = Some v -> v <> [].
Proof.
  intros Hkeyed. unfold gather_aliases. rewrite Hkeyed, bind_Ok.
  set (aliases := foldl insert_name _ tune_data).
  assert (Hne : forall tid v, aliases !! tid = Some v -> v <> []).
  { apply foldl_insert_name_nonempty. intros tid v Hv.
    apply lookup_fmap_Some in Hv as (l & <- & Hl).
    apply deduplicate_aliases_not_nil.
    revert Hl. apply foldl_append_alias_nonempty.
    intros tid' v' Hv'. rewrite lookup_empty in Hv'. discriminate. }
  exists aliases. split; [|exact Hne].
  assert (Hall : forallb (fun kv => negb (bool_decide (kv.2 = [])))
                         (map_to_list aliases) = true).
  { apply forallb_forall. intros [tid v] Hin.
    apply list_elem_of_In, elem_of_map_to_list in Hin.
    cbn. rewrite bool_decide_eq_false_2; [reflexivity | exact (Hne tid v Hin)]. }
  rewrite Hall. reflexivity.
Qed.

(** X25.  [gather_aliases] returns exactly when every tune identifier of
    [alias_records] reads as an integer, and then no tune has an empty
    list; otherwise it raises [ValueError].  The assertion at its end never
    fails. *)
Theorem gather_aliases_outcome
    (alias_records : list alias_record) (tune_data : list tune_setting) :
  (Forall (fun r => exists k, py_int (ar_tune_id r) = Ok k) alias_records ->
   exists aliases,
     gather_aliases alias_records tune_data = Ok aliases
     /\ forall tid v, aliases !! tid = Some v -> v <> [])
  /\ (Exists (fun r => exists e, py_int (ar_tune_id r) = Raise e) alias_records ->
      gather_aliases alias_records tune_data = Raise ValueError)
  /\ gather_aliases alias_records tune_data <> Raise AssertionError.
Proof.
  destruct (keyed_records_outcome alias_records) as [Hok Hbad].
  split; [|split].
  - intros Hall. destruct (Hok Hall) as [keyed Hkeyed].
    apply (gather_aliases_when_keyed _ _ keyed Hkeyed).
  - intros Hex. unfold gather_aliases. rewrite (Hbad Hex). reflexivity.
  - destruct (mapM (fun r => k ← py_int (ar_tune_id r); mret (k, r)) alias_records)
      as [keyed|e] eqn:Hkeyed.
    + destruct (gather_aliases_when_keyed _ tune_data keyed Hkeyed) as (aliases & -> & _).
      discriminate.
    + assert (Hex : Exists (fun r => exists e, py_int (ar_tune_id r) = Raise e) alias_records).
      { clear Hok Hbad. revert e Hkeyed.
        induction alias_records as [|r rest IH]; intros e Hkeyed; [discriminate|].
        cbn in Hkeyed.
        destruct (py_int (ar_tune_id r)) as [k|e'] eqn:Hk; [|left; exists e'; exact Hk].
        cbn in Hkeyed. right.
        destruct (mapM _ rest) as [keyed'|e'']; [discriminate|]. apply (IH e''). reflexivity. }
      pose proof (Hbad Hex) as He. injection He as ->.
      unfold gather_aliases. rewrite Hkeyed. discriminate.
Qed.

Lemma gather_aliases_outcome_witness :
  (exists aliases,
      gather_aliases zed_reel_aliases zed_reel_settings = Ok aliases
      /\ forall tid v, aliases !! tid = Some v -> v <> [])
  /\ gather_aliases [bad_alias_record] zed_reel_settings = Raise ValueError.
Proof.
  split.
  - apply (proj1 (gather_aliases_outcome zed_reel_aliases zed_reel_settings)).
    repeat constructor; eexists; vm_compute; reflexivity.
  - apply (proj1 (proj2 (gather_aliases_outcome [bad_alias_record] zed_reel_settings))).
    left. eexists. vm_compute. reflexivity.
Defined.

(** ** The older gather_aliases *)

Lemma get_list_foldl_append_name (l : list tune_setting) (m : gmap string (list string))
    (tid : string) :
  get_list (foldl append_name m l) tid = get_list m tid ++ names_of tid l.
Proof.
  revert m. induction l as [|t l IH]; intros m; cbn [foldl].
  - unfold names_of. rewrite filter_nil. cbn. rewrite app_nil_r. reflexivity.
  - rewrite IH. unfold append_name, names_of, get_list at 1.
    rewrite filter_cons.
    destruct (decide (ts_tune_id t = tid)) as [->|Hne].
    + rewrite lookup_insert_eq. cbn. rewrite <- app_assoc. reflexivity.
    + rewrite lookup_insert_ne by exact Hne. reflexivity.
Qed.

(** X26.  In the older variant of [gather_aliases] the list of a tune is
    the deduplicated list of the names of its settings followed by its
    aliases; being the output of [deduplicate_aliases] it is in
    alphabetical order, so the name is first only when no alias that is
    kept sorts before it. *)
Theorem gather_aliases_legacy_tune_by_tune (alias_records : list alias_record)
    (tune_data : list tune_setting) (aliases : gmap string (list string)) (tid : string) :
  gather_aliases_legacy alias_records tune_data = Ok aliases ->
  get_list aliases tid
  = deduplicate_aliases (names_of tid tune_data ++ aliases_of tid alias_records)
  /\ StronglySorted String.le (get_list aliases tid).
Proof.
  unfold gather_aliases_legacy. intros Hgather.
  destruct (mapM _ alias_records) as [keyed|err] eqn:Hkeyed; [|discriminate].
  rewrite bind_Ok in Hgather. injection Hgather as <-.
  destruct (keyed_records _ _ Hkeyed) as [Hsnd Hkeys].
  assert (Hlist : get_list (deduplicate_aliases
                              <$> foldl append_alias (foldl append_name ∅ tune_data)
                                        ((sorted_by_key fst keyed).*2)) tid
                  = deduplicate_aliases
                      (names_of tid tune_data ++ aliases_of tid alias_records)).
  { rewrite get_list_fmap_dedupe, get_list_foldl_append, get_list_foldl_append_name.
    unfold get_list at 1. rewrite lookup_empty. cbn [default app].
    unfold aliases_of. rewrite (sorted_records_filter tid keyed Hkeys), Hsnd.
    reflexivity. }
  split; [exact Hlist|].
  rewrite Hlist. unfold deduplicate_aliases. apply sorted_strings_sorted.
Qed.

Lemma gather_aliases_legacy_tune_by_tune_witness :
  exists aliases,
    gather_aliases_legacy zed_reel_aliases zed_reel_settings = Ok aliases
    /\ get_list aliases "1" = ["apple"; "zed reel"].
Proof.
  eexists. split; [vm_compute; reflexivity|].
  destruct (gather_aliases_legacy_tune_by_tune zed_reel_aliases zed_reel_settings _ "1"
              ltac:(vm_compute; reflexivity)) as [Hlist _].
  rewrite Hlist. vm_compute. reflexivity.
Defined.

(** ** clean_thesession_data *)

Lemma del_key_Some {V : Type} (key : string) (d d' : gmap string V) :
  del_key key d = Some d' <-> is_Some (d !! key) /\ d' = delete key d.
Proof.
  unfold del_key. destruct (d !! key) as [v|]; split.
  - intros [= <-]. split; [eexists; reflexivity | reflexivity].
  - intros [_ ->]. reflexivity.
  - discriminate.
  - intros [[v Hv] _]. discriminate.
Qed.

(** X27.  [clean_thesession_data] goes through on a setting exactly when
    the setting has the keys [date], [username], [name] and [type].  The
    cleaned setting then lacks these four keys, holds under [dance] what
    was under [type], and holds under every other key what it held
    before. *)
Theorem clean_setting_result {V : Type} (setting : gmap string V) :
  (is_Some (clean_setting setting)
   <-> is_Some (setting !! "date") /\ is_Some (setting !! "username")
       /\ is_Some (setting !! "name") /\ is_Some (setting !! "type"))
  /\ forall cleaned,
       clean_setting setting = Some cleaned ->
       cleaned !! "dance" = setting !! "type"
       /\ cleaned !! "date" = None /\ cleaned !! "username" = None
       /\ cleaned !! "name" = None /\ cleaned !! "type" = None
       /\ forall key,
            key <> "dance" -> key <> "date" -> key <> "username" ->
            key <> "name" -> key <> "type" ->
            cleaned !! key = setting !! key.
Proof.
  unfold clean_setting, del_key.
  destruct (setting !! "date") as [vd|] eqn:Hd;
    [|split; [split; [intros [? [=]] | intros ([? [=]] & _)] | intros ? [=]]].
  cbn [mbind option_bind].
  rewrite lookup_delete_ne by discriminate.
  destruct (setting !! "username") as [vu|] eqn:Hu;
    [|split; [split; [intros [? [=]] | intros (_ & [? [=]] & _)] | intros ? [=]]].
  cbn [mbind option_bind].
  rewrite !lookup_delete_ne by discriminate.
  destruct (setting !! "name") as [vn|] eqn:Hn;
    [|split; [split; [intros [? [=]] | intros (_ & _ & [? [=]] & _)] | intros ? [=]]].
  cbn [mbind option_bind].
  rewrite !lookup_delete_ne by discriminate.
  destruct (setting !! "type") as [vt|] eqn:Ht;
    [|split; [split; [intros [? [=]] | intros (_ & _ & _ & [? [=]])] | intros ? [=]]].
  cbn [mbind option_bind].
  rewrite lookup_insert_ne by discriminate.
  rewrite !lookup_delete_ne by discriminate. rewrite Ht.
  split.
  - split; [intros _; repeat split; eexists; reflexivity | intros _; eexists; reflexivity].
  - intros cleaned [= <-].
    split; [rewrite lookup_delete_ne by discriminate; apply lookup_insert_eq|].
    split; [rewrite lookup_delete_ne, lookup_insert_ne, !lookup_delete_ne by discriminate;
            apply lookup_delete_eq|].
    split; [rewrite lookup_delete_ne, lookup_insert_ne, lookup_delete_ne by discriminate;
            apply lookup_delete_eq|].
    split; [rewrite lookup_delete_ne, lookup_insert_ne by discriminate;
            apply lookup_delete_eq|].
    split; [apply lookup_delete_eq|].
    intros key H1 H2 H3 H4 H5.
    rewrite lookup_delete_ne, lookup_insert_ne, !lookup_delete_ne by congruence.
    reflexivity.
Qed.

Lemma clean_setting_result_witness : is_Some (clean_setting sample_setting).
Proof.
  apply (proj2 (proj1 (clean_setting_result sample_setting))).
  repeat split; eexists; vm_compute; reflexivity.
Defined.
